(** * Terminal Command Trigger: the extension's event handlers, verified

    A shallow embedding of [src/extension.ts].  The extension listens to the
    editor's "terminal command started / ended" events, matches the command
    line against the configured triggers and runs the trigger's [onStart] and
    [onEnd] actions.

    What the host gives (regular expressions, the extension registry, the
    values an extension exports) is taken as an interface; what the extension
    itself computes (trimming, the trigger loops, the map of active
    executions, the [ext:id:path] action syntax, the one-time warning) is
    written out. *)

From Stdlib Require Import Strings.String Strings.Ascii.
From stdpp Require Import gmap list option.

Local Open Scope N_scope.

(** ** Strings

    A JavaScript string is a sequence of UTF-16 code units. *)

Abbreviation jsstring := (list N).

(** ASCII literals, for readable examples. *)
Definition lit (s : string) : jsstring :=
  (fun a => N_of_ascii a) <$> list_ascii_of_string s.

Definition colon : N := 58.
Definition dot : N := 46.

(** [String.prototype.startsWith]. *)
Fixpoint startsWith (prefix s : jsstring) : bool :=
  match prefix, s with
  | [], _ => true
  | _ :: _, [] => false
  | p :: prefix', c :: s' => if decide (p = c) then startsWith prefix' s' else false
  end.

(** [String.prototype.split] with a one-character separator: never empty,
    the empty string splits into one empty part. *)
Fixpoint split (sep : N) (s : jsstring) : list jsstring :=
  match s with
  | [] => [[]]
  | c :: s' =>
      if decide (c = sep) then [] :: split sep s'
      else match split sep s' with
           | part :: parts => (c :: part) :: parts
           | [] => [[c]]
           end
  end.

(** [Array.prototype.join] with a one-character separator. *)
Fixpoint join (sep : N) (parts : list jsstring) : jsstring :=
  match parts with
  | [] => []
  | [part] => part
  | part :: parts' => part ++ sep :: join sep parts'
  end.

(** White space and line terminators of ECMAScript, the code units that
    [String.prototype.trim] strips. *)
Definition is_white_space (c : N) : bool :=
  bool_decide (c ∈ [9; 10; 11; 12; 13; 32; 160; 5760; 8232; 8233; 8239; 8287; 12288; 65279])
  || ((8192 <=? c) && (c <=? 8202)).

Fixpoint trimStart (s : jsstring) : jsstring :=
  match s with
  | c :: s' => if is_white_space c then trimStart s' else s
  | [] => []
  end.

Definition trimEnd (s : jsstring) : jsstring := reverse (trimStart (reverse s)).

(** [String.prototype.trim]. *)
Definition trim (s : jsstring) : jsstring := trimEnd (trimStart s).

(** ** Configuration *)

Record TriggerConfig := {
  pattern : jsstring;
  onStart : option jsstring;
  onEnd : option jsstring;
  description : option jsstring;
}.

(** [if (trigger.onStart)]: the field is there and is not the empty string. *)
Definition present (field : option jsstring) : bool :=
  match field with
  | Some (_ :: _) => true
  | _ => false
  end.

(** ** The host's regular expressions

    [new RegExp(p)] throws on an invalid pattern ([None]); the expressions
    are built without flags, so [test] keeps no state between calls. *)

Class RegExpEngine := {
  RegExp : Type;
  new_RegExp : jsstring → option RegExp;
  RegExp_test : RegExp → jsstring → bool;
  RegExp_toString : RegExp → jsstring;
}.

(** ECMAScript asks of [RegExp.prototype.source], hence of [toString], that
    the text read back as a literal behaves as the expression it came from:
    two expressions printed alike accept the same strings. *)
Definition toString_faithful `{RegExpEngine} : Prop :=
  ∀ r1 r2 : RegExp,
    RegExp_toString r1 = RegExp_toString r2 →
    ∀ s, RegExp_test r1 s = RegExp_test r2 s.

(** ** Executions, effects and the two handlers *)

(** A [TerminalShellExecution]: an object, known by its identity, whose
    command line is read when a handler runs. *)
Record Execution := {
  exec_id : positive;
  commandLine_value : jsstring;
}.

Inductive phase := PhaseStart | PhaseEnd.

(** What a handler does, in the order it does it. *)
Inductive effect :=
| Tested (p : jsstring) (commandLine : jsstring)  (* regex.test(commandLine) *)
| Recorded (id : positive)                        (* activeExecutions.set *)
| Removed (id : positive)                         (* activeExecutions.delete *)
| Executed (ph : phase) (action : jsstring)       (* executeAction(action, ph) *)
| InvalidPattern (p : jsstring)                   (* console.error + showErrorMessage *)
| EndError (p : jsstring).                        (* console.error in the end handler *)

Global Instance phase_eq_dec : EqDecision phase.
Proof. solve_decision. Defined.
Global Instance effect_eq_dec : EqDecision effect.
Proof. solve_decision. Defined.

Section Handlers.
Context `{RegExpEngine}.

(** The loop of [handleTerminalCommandStart] over the triggers. *)
Fixpoint start_loop (triggers : list TriggerConfig) (id : positive)
    (commandLine : jsstring) (activeExecutions : gmap positive RegExp)
    : gmap positive RegExp * list effect :=
  match triggers with
  | [] => (activeExecutions, [])
  | trigger :: rest =>
      match new_RegExp (pattern trigger) with
      | None =>
          let '(m, t) := start_loop rest id commandLine activeExecutions in
          (m, InvalidPattern (pattern trigger) :: t)
      | Some regex =>
          if RegExp_test regex commandLine then
            (<[id := regex]> activeExecutions,
             Tested (pattern trigger) commandLine :: Recorded id ::
             (if present (onStart trigger)
              then [Executed PhaseStart (default [] (onStart trigger))]
              else []))
          else
            let '(m, t) := start_loop rest id commandLine activeExecutions in
            (m, Tested (pattern trigger) commandLine :: t)
      end
  end.

Definition handleTerminalCommandStart (triggers : list TriggerConfig)
    (execution : Execution) (activeExecutions : gmap positive RegExp)
    : gmap positive RegExp * list effect :=
  let commandLine := trim (commandLine_value execution) in
  match commandLine with
  | [] => (activeExecutions, [])
  | _ :: _ => start_loop triggers (exec_id execution) commandLine activeExecutions
  end.

(** The loop of [handleTerminalCommandEnd]: the first trigger whose
    expression prints like the recorded one. *)
Fixpoint end_loop (triggers : list TriggerConfig) (regex : RegExp) : list effect :=
  match triggers with
  | [] => []
  | trigger :: rest =>
      match new_RegExp (pattern trigger) with
      | None => EndError (pattern trigger) :: end_loop rest regex
      | Some triggerRegex =>
          if decide (RegExp_toString triggerRegex = RegExp_toString regex) then
            if present (onEnd trigger)
            then [Executed PhaseEnd (default [] (onEnd trigger))]
            else []
          else end_loop rest regex
      end
  end.

Definition handleTerminalCommandEnd (triggers : list TriggerConfig)
    (execution : Execution) (activeExecutions : gmap positive RegExp)
    : gmap positive RegExp * list effect :=
  match activeExecutions !! exec_id execution with
  | None => (activeExecutions, [])
  | Some regex =>
      (delete (exec_id execution) activeExecutions,
       Removed (exec_id execution) :: end_loop triggers regex)
  end.

(** The events the host delivers, and a run of the extension over them. *)
Inductive host_event :=
| DidStart (execution : Execution)
| DidEnd (execution : Execution).

Definition event_id (ev : host_event) : positive :=
  match ev with
  | DidStart e | DidEnd e => exec_id e
  end.

Definition handle (triggers : list TriggerConfig) (ev : host_event)
    (activeExecutions : gmap positive RegExp) : gmap positive RegExp * list effect :=
  match ev with
  | DidStart e => handleTerminalCommandStart triggers e activeExecutions
  | DidEnd e => handleTerminalCommandEnd triggers e activeExecutions
  end.

(** Effects are tagged with the execution whose event produced them. *)
Fixpoint run (triggers : list TriggerConfig) (evs : list host_event)
    (activeExecutions : gmap positive RegExp)
    : gmap positive RegExp * list (positive * effect) :=
  match evs with
  | [] => (activeExecutions, [])
  | ev :: evs' =>
      let '(m, t) := handle triggers ev activeExecutions in
      let '(m', t') := run triggers evs' m in
      (m', ((fun e => (event_id ev, e)) <$> t) ++ t')
  end.

End Handlers.

(** ** Actions

    The host side of [executeAction]: the registry of installed extensions,
    their activation, and the values ([any]) an extension exports. *)

Class ExtensionHost := {
  Value : Type;
  undefined : Value;
  is_nullish : Value → bool;          (* v === undefined || v === null *)
  truthy : Value → bool;              (* !!v *)
  typeof_function : Value → bool;     (* typeof v === 'function' *)
  get : Value → jsstring → Value;     (* v[k], for v that is not nullish *)
  Extension : Type;
  getExtension : jsstring → option Extension;
  activate : Extension → option Value; (* None: the activation promise rejects *)
  (* typeof undefined is 'undefined' *)
  undefined_not_function : typeof_function undefined = false;
}.

Section Actions.
Context `{ExtensionHost}.

(** The errors [executeAction] rejects with. *)
Inductive action_error :=
| InvalidSyntax (action : jsstring)
| ExtensionNotFound (extensionId : jsstring)
| ActivationFailed (extensionId : jsstring)
| ApiPathNotFound (apiPath failedAt : jsstring)
| CannotReadProperty (methodName : jsstring)   (* TypeError of target[methodName] *)
| NotAFunction (apiPath : jsstring).

(** What [executeAction] asks of the host. *)
Inductive host_call :=
| Activate (extension : Extension)
| CallMethod (method target : Value)           (* method.call(target) *)
| ExecuteCommand (command : jsstring).         (* vscode.commands.executeCommand *)

(** [target?.[key]] *)
Definition optional_get (target : Value) (key : jsstring) : Value :=
  if is_nullish target then undefined else get target key.

(** The loop over all segments but the last; [seen] holds the segments
    already passed, for the error message. *)
Fixpoint follow (target : Value) (seen segments : list jsstring)
    : list jsstring + Value :=
  match segments with
  | [] => inr target
  | key :: segments' =>
      let target' := optional_get target key in
      if truthy target' then follow target' (seen ++ [key]) segments'
      else inl (seen ++ [key])
  end.

Definition executeAction (action : jsstring) : list host_call * option action_error :=
  if startsWith (lit "ext:") action then
    let parts := split colon (drop 4 action) in
    if bool_decide (length parts < 2)%nat then ([], Some (InvalidSyntax action))
    else
      let extensionId := default [] (head parts) in
      let apiPath := join colon (tail parts) in
      match getExtension extensionId with
      | None => ([], Some (ExtensionNotFound extensionId))
      | Some extension =>
          match activate extension with
          | None => ([Activate extension], Some (ActivationFailed extensionId))
          | Some api =>
              let pathParts := split dot apiPath in
              match follow api [] (take (length pathParts - 1) pathParts) with
              | inl failed =>
                  ([Activate extension], Some (ApiPathNotFound apiPath (join dot failed)))
              | inr target =>
                  let methodName := default [] (pathParts !! (length pathParts - 1)%nat) in
                  if is_nullish target then
                    ([Activate extension], Some (CannotReadProperty methodName))
                  else
                    let method := get target methodName in
                    if typeof_function method then
                      ([Activate extension; CallMethod method target], None)
                    else ([Activate extension], Some (NotAFunction apiPath))
              end
          end
      end
  else ([ExecuteCommand action], None).

End Actions.

(** ** The Shell Integration warning

    [checkShellIntegration] and [showShellIntegrationWarning].  Timers and
    dialogs are the host's; an activation is given what the host reports
    when they fire, and is followed until they have all fired. *)

Record Terminal := { shellIntegration : bool }.

Inductive selection := LearnMore | DontShowAgain | Dismissed.

Record activation := {
  terminals : list Terminal;                (* vscode.window.terminals after 3 s *)
  choice : selection;                       (* the answer to a warning shown then *)
  opened : list (Terminal * selection);     (* terminals opened while the listener
                                               is registered, as seen 2 s after
                                               opening, and the answer if warned *)
}.

(** [showShellIntegrationWarning]: one more warning shown; the flag is set on
    "Don't Show Again". *)
Definition showShellIntegrationWarning (answer : selection) (st : bool * nat) : bool * nat :=
  let '(flag, shown) := st in
  (match answer with DontShowAgain => true | _ => flag end, S shown).

(** The state is the persistent flag [shownShellIntegrationWarning] and the
    number of warnings shown so far. *)
Definition checkShellIntegration (a : activation) (st : bool * nat) : bool * nat :=
  let '(hasShownWarning, shown) := st in
  if hasShownWarning then st
  else
    let hasIntegration := existsb shellIntegration (terminals a) in
    if negb hasIntegration && bool_decide (length (terminals a) = 0%nat) then
      foldl (fun st' '(terminal, answer) =>
               if negb (shellIntegration terminal)
               then showShellIntegrationWarning answer st' else st')
            st (opened a)
    else
      let '(flag, shown') :=
        if negb hasIntegration then showShellIntegrationWarning (choice a) st else st in
      (true, shown').

Definition activations (l : list activation) (st : bool * nat) : bool * nat :=
  foldl (fun st' a => checkShellIntegration a st') st l.

(** ** The status bar item

    [showTemporaryNotification], the timer it sets and [deactivate].  The
    host's timers are a table of the timeouts that are set and have neither
    fired nor been cleared, each with the time at which it is due; time is
    counted in milliseconds. *)

Record StatusBar := {
  statusBarItem_text : jsstring;
  statusBarItem_visible : bool;
  statusBarItem_disposed : bool;
  statusBarTimeout : option nat;       (* the handle kept by the module *)
  timers : gmap nat nat;               (* host: handle ↦ time due *)
  next_timer : nat;                    (* host: the next handle *)
}.

(** [clearTimeout] *)
Definition clearTimeout (handle : nat) (s : StatusBar) : StatusBar :=
  {| statusBarItem_text := statusBarItem_text s;
     statusBarItem_visible := statusBarItem_visible s;
     statusBarItem_disposed := statusBarItem_disposed s;
     statusBarTimeout := statusBarTimeout s;
     timers := delete handle (timers s);
     next_timer := next_timer s |}.

(** The item as [activate] creates it: hidden, no timeout set. *)
Definition created : StatusBar :=
  {| statusBarItem_text := [];
     statusBarItem_visible := false;
     statusBarItem_disposed := false;
     statusBarTimeout := None;
     timers := ∅;
     next_timer := 0%nat |}.

Definition showTemporaryNotification (message : jsstring) (duration now : nat)
    (s : StatusBar) : StatusBar :=
  let s1 := match statusBarTimeout s with
            | Some handle => clearTimeout handle s
            | None => s
            end in
  {| statusBarItem_text := message;
     statusBarItem_visible := true;
     statusBarItem_disposed := statusBarItem_disposed s1;
     statusBarTimeout := Some (next_timer s1);
     timers := <[next_timer s1 := (now + duration)%nat]> (timers s1);
     next_timer := S (next_timer s1) |}.

(** The host at time [now]: the timeouts that are due fire.  They all carry
    the callback of [showTemporaryNotification], which hides the item and
    forgets the handle. *)
Definition fire_due (now : nat) (s : StatusBar) : StatusBar :=
  let due := filter (fun x => (x.2 ≤ now)%nat) (timers s) in
  if decide (due = ∅) then s
  else
    {| statusBarItem_text := statusBarItem_text s;
       statusBarItem_visible := false;
       statusBarItem_disposed := statusBarItem_disposed s;
       statusBarTimeout := None;
       timers := filter (fun x => ¬ (x.2 ≤ now)%nat) (timers s);
       next_timer := next_timer s |}.

Inductive ui_event :=
| Notify (message : jsstring) (duration now : nat)
| Elapsed (now : nat).

Definition ui_step (s : StatusBar) (ev : ui_event) : StatusBar :=
  match ev with
  | Notify message duration now => showTemporaryNotification message duration now s
  | Elapsed now => fire_due now s
  end.

Definition ui_run (evs : list ui_event) (s : StatusBar) : StatusBar :=
  foldl ui_step s evs.

(** [deactivate]: the timeout is cleared, the item disposed, the map of
    active executions emptied. *)
Definition deactivate `{RegExpEngine} (s : StatusBar)
    (activeExecutions : gmap positive RegExp) : StatusBar * gmap positive RegExp :=
  let s1 := match statusBarTimeout s with
            | Some handle => clearTimeout handle s
            | None => s
            end in
  ({| statusBarItem_text := statusBarItem_text s1;
      statusBarItem_visible := statusBarItem_visible s1;
      statusBarItem_disposed := true;
      statusBarTimeout := statusBarTimeout s1;
      timers := timers s1;
      next_timer := next_timer s1 |}, ∅).

(** ** Notions used to state the properties *)

Section Notions.
Context `{RegExpEngine}.

(** The trigger's pattern is a valid expression that accepts the line. *)
Definition matches (trigger : TriggerConfig) (commandLine : jsstring) : bool :=
  match new_RegExp (pattern trigger) with
  | Some regex => RegExp_test regex commandLine
  | None => false
  end.

(** What the start handler does for a trigger that does not match. *)
Definition passed_over (commandLine : jsstring) (trigger : TriggerConfig) : effect :=
  match new_RegExp (pattern trigger) with
  | Some _ => Tested (pattern trigger) commandLine
  | None => InvalidPattern (pattern trigger)
  end.

(** What the end handler does for the triggers before the one it looks
    for: nothing for a valid pattern, a logged error for an invalid one. *)
Definition end_errors (triggers : list TriggerConfig) : list effect :=
  omap (fun trigger =>
          match new_RegExp (pattern trigger) with
          | Some _ => None
          | None => Some (EndError (pattern trigger))
          end) triggers.

(** The action a trigger runs in a phase, when it has one. *)
Definition fires (ph : phase) (trigger : TriggerConfig) : list effect :=
  let field := match ph with PhaseStart => onStart trigger | PhaseEnd => onEnd trigger end in
  if present field then [Executed ph (default [] field)] else [].

Definition is_action (e : effect) : bool :=
  match e with Executed _ _ => true | _ => false end.

Definition touches_map (e : effect) : bool :=
  match e with Recorded _ | Removed _ => true | _ => false end.

(** The executions of a run whose start event matched some trigger. *)
Definition matched_start (triggers : list TriggerConfig) (ev : host_event) : bool :=
  match ev with
  | DidStart e =>
      match trim (commandLine_value e) with
      | [] => false
      | commandLine => existsb (fun t => matches t commandLine) triggers
      end
  | DidEnd _ => false
  end.

Definition matched_starts (triggers : list TriggerConfig) (evs : list host_event)
    : list positive :=
  event_id <$> filter (fun ev => matched_start triggers ev = true) evs.

(** Counters for the accounting of onEnd actions: whether an execution
    is in the map, and whether an event is a start of it that matched. *)
Definition occupied (m : gmap positive RegExp) (id : positive) : nat :=
  match m !! id with Some _ => 1 | None => 0 end.

Definition starts_for (triggers : list TriggerConfig) (ev : host_event)
    (id : positive) : nat :=
  if decide (matched_start triggers ev = true ∧ event_id ev = id) then 1 else 0.

(** The onEnd actions a run executed for one execution. *)
Definition is_end_action (e : effect) : bool :=
  match e with Executed PhaseEnd _ => true | _ => false end.

Definition end_actions (id : positive) (t : list (positive * effect))
    : list (positive * effect) :=
  filter (fun x => x.1 = id ∧ is_end_action x.2 = true) t.

End Notions.

Section ActionNotions.
Context `{ExtensionHost}.

(** The values met when a path is followed from [target], one for each
    segment; a step from [undefined] or [null] gives [undefined]. *)
Fixpoint along (target : Value) (segments : list jsstring) : list Value :=
  match segments with
  | [] => []
  | key :: segments' =>
      let v := optional_get target key in v :: along v segments'
  end.

(** The value at the end of the path. *)
Definition reach (target : Value) (segments : list jsstring) : Value :=
  foldl optional_get target segments.

(** All segments but the last. *)
Definition intermediate (segments : list jsstring) : list jsstring :=
  take (length segments - 1) segments.

(** The two halves of [ext:extensionId:api.path]. *)
Definition extension_part (action : jsstring) : jsstring :=
  default [] (head (split colon (drop 4 action))).

Definition path_part (action : jsstring) : list jsstring :=
  split dot (join colon (tail (split colon (drop 4 action)))).

Definition is_invocation (c : host_call) : bool :=
  match c with
  | CallMethod _ _ | ExecuteCommand _ => true
  | Activate _ => false
  end.

(** The promise is rejected and neither a method nor a command was
    invoked. *)
Definition rejects_without_invoking (action : jsstring) : bool :=
  match executeAction action with
  | (calls, Some _) => forallb (fun c => negb (is_invocation c)) calls
  | (_, None) => false
  end.

(** The causes of rejection as the specification lists them: fewer than
    two parts, extension not installed, an intermediate segment that
    resolves to nothing, a final value that is not a function. *)
Definition listed_causes (action : jsstring) : bool :=
  bool_decide (length (split colon (drop 4 action)) < 2)%nat
  || match getExtension (extension_part action) with
     | None => true
     | Some extension =>
         match activate extension with
         | None => false
         | Some api =>
             existsb is_nullish (along api (intermediate (path_part action)))
             || negb (typeof_function (reach api (path_part action)))
         end
     end.

(** The causes of rejection in the code: the activation may fail as well,
    and an intermediate segment stops the walk when its value is falsy. *)
Definition rejection_causes (action : jsstring) : bool :=
  bool_decide (length (split colon (drop 4 action)) < 2)%nat
  || match getExtension (extension_part action) with
     | None => true
     | Some extension =>
         match activate extension with
         | None => true
         | Some api =>
             existsb (fun v => negb (truthy v)) (along api (intermediate (path_part action)))
             || negb (typeof_function (reach api (path_part action)))
         end
     end.

End ActionNotions.

(** More notions, for the properties beyond the claims. *)

Section MoreNotions.
Context `{RegExpEngine}.

(** The phase an event belongs to, and the field of a trigger that holds
    the action of a phase. *)
Definition event_phase (ev : host_event) : phase :=
  match ev with DidStart _ => PhaseStart | DidEnd _ => PhaseEnd end.

Definition action_field (ph : phase) (t : TriggerConfig) : option jsstring :=
  match ph with PhaseStart => onStart t | PhaseEnd => onEnd t end.

(** The trigger's pattern is valid and prints like [regex]: the test of the
    end loop. *)
Definition prints_like (regex : RegExp) (t : TriggerConfig) : bool :=
  match new_RegExp (pattern t) with
  | Some triggerRegex =>
      bool_decide (RegExp_toString triggerRegex = RegExp_toString regex)
  | None => false
  end.

Definition is_start_of (id : positive) (ev : host_event) : bool :=
  match ev with
  | DidStart e => bool_decide (exec_id e = id)
  | DidEnd _ => false
  end.

End MoreNotions.

(** A terminal opened without shell integration, and the answer to its
    warning. *)
Definition warned (x : Terminal * selection) : bool := negb (shellIntegration x.1).

Definition declined (x : Terminal * selection) : bool :=
  warned x && match x.2 with DontShowAgain => true | _ => false end.

(** The item and the host's timers agree: shown with the one timeout that
    the module keeps, or hidden with none. *)
Definition timer_kept (s : StatusBar) : Prop :=
  match statusBarTimeout s with
  | Some handle =>
      statusBarItem_visible s = true ∧ ∃ due, timers s = {[handle := due]}
  | None => statusBarItem_visible s = false ∧ timers s = ∅
  end.

(** ** A small host, to run the definitions on

    An engine for literal patterns: a pattern of letters, digits and spaces
    is valid and accepts the strings that contain it, as in JavaScript; the
    empty pattern has the source [(?:)] and accepts everything.  Any other
    pattern is refused, which is what JavaScript does with ["("]. *)

Definition is_plain (c : N) : bool :=
  ((48 <=? c) && (c <=? 57)) || ((65 <=? c) && (c <=? 90))
  || ((97 <=? c) && (c <=? 122)) || (c =? 32).

Fixpoint includes (needle s : jsstring) : bool :=
  startsWith needle s ||
  match s with
  | [] => false
  | _ :: s' => includes needle s'
  end.

Record literal := { literal_source : jsstring }.

Definition literal_new (p : jsstring) : option literal :=
  if forallb is_plain p
  then Some {| literal_source := match p with [] => lit "(?:)" | _ => p end |}
  else None.

Definition literal_test (r : literal) (s : jsstring) : bool :=
  if decide (literal_source r = lit "(?:)") then true
  else includes (literal_source r) s.

Definition literal_toString (r : literal) : jsstring :=
  47 :: literal_source r ++ [47].

Definition literal_engine : RegExpEngine := {|
  RegExp := literal;
  new_RegExp := literal_new;
  RegExp_test := literal_test;
  RegExp_toString := literal_toString;
|}.

#[local] Set Warnings "-register-all".

(** Exported values: plain data and functions.  Objects have the properties
    listed and no others; booleans and strings have the [toString] of their
    prototype. *)
Inductive jsval :=
| JUndefined
| JNull
| JBoolean (b : bool)
| JString (s : jsstring)
| JFunction (name : jsstring)
| JObject (props : list (jsstring * jsval)).

Fixpoint own_property (props : list (jsstring * jsval)) (key : jsstring) : jsval :=
  match props with
  | [] => JUndefined
  | (k, v) :: props' => if decide (k = key) then v else own_property props' key
  end.

Definition jsval_get (v : jsval) (key : jsstring) : jsval :=
  match v with
  | JObject props => own_property props key
  | JBoolean _ =>
      if decide (key = lit "toString") then JFunction (lit "Boolean.prototype.toString")
      else JUndefined
  | JString _ =>
      if decide (key = lit "toString") then JFunction (lit "String.prototype.toString")
      else JUndefined
  | _ => JUndefined
  end.

Definition jsval_truthy (v : jsval) : bool :=
  match v with
  | JUndefined | JNull => false
  | JBoolean b => b
  | JString s => match s with [] => false | _ => true end
  | JFunction _ | JObject _ => true
  end.

Definition jsval_nullish (v : jsval) : bool :=
  match v with JUndefined | JNull => true | _ => false end.

Definition jsval_function (v : jsval) : bool :=
  match v with JFunction _ => true | _ => false end.

(** The installed extensions, each with what its activation gives. *)
Definition installed_host (installed : list (jsstring * option jsval)) : ExtensionHost := {|
  Value := jsval;
  undefined := JUndefined;
  is_nullish := jsval_nullish;
  truthy := jsval_truthy;
  typeof_function := jsval_function;
  get := jsval_get;
  Extension := jsstring * option jsval;
  getExtension := fun id => (fun x => (id, x)) <$> (list_to_map installed : gmap jsstring (option jsval)) !! id;
  activate := snd;
  undefined_not_function := eq_refl;
|}.

Module Samples.

Definition trigger (p : string) (start finish : string) : TriggerConfig :=
  {| pattern := lit p; onStart := Some (lit start); onEnd := Some (lit finish);
     description := None |}.

(** Two triggers that both accept [make all]. *)
Definition overlapping : list TriggerConfig :=
  [ trigger "make" "first.start" "first.end";
    trigger "make all" "second.start" "second.end" ].

(** An invalid pattern before a valid one. *)
Definition with_invalid : list TriggerConfig :=
  [ trigger "(" "never.start" "never.end";
    trigger "make" "build.start" "build.end" ].

(** A trigger that is passed over, the one that matches, one after it. *)
Definition before_match : list TriggerConfig := [ trigger "test" "test.start" "test.end" ].
Definition build : TriggerConfig := trigger "make" "first.start" "first.end".
Definition after_match : list TriggerConfig := [ trigger "make all" "second.start" "second.end" ].

(** A pattern that accepts the empty string. *)
Definition accepts_all : list TriggerConfig :=
  [ trigger "" "any.start" "any.end" ].

Definition execution (id : positive) (commandLine : string) : Execution :=
  {| exec_id := id; commandLine_value := lit commandLine |}.

(** The clangd API of the README, an extension that exports nothing, one
    whose activation fails, and one that exports a flag. *)
Definition clangd_api : jsval :=
  JObject [ (lit "client",
             JObject [ (lit "stop", JFunction (lit "stop"));
                       (lit "start", JFunction (lit "start"));
                       (lit "name", JString (lit "clangd")) ]) ].

Definition extensions : list (jsstring * option jsval) :=
  [ (lit "llvm-vs-code-extensions.vscode-clangd", Some clangd_api);
    (lit "pub.silent", Some JUndefined);
    (lit "pub.broken", None);
    (lit "pub.flags", Some (JObject [ (lit "enabled", JBoolean false) ]));
    (lit "pub.colon",
     Some (JObject [ (lit "ns:client", JObject [ (lit "stop", JFunction (lit "stop")) ]) ])) ].

Definition host : ExtensionHost := installed_host extensions.

(** The configuration after an edit: the onEnd of the [make] trigger
    changed; and after the trigger was taken out. *)
Definition edited : list TriggerConfig :=
  [ trigger "test" "test.start" "test.end"; trigger "make" "first.start" "edited.end" ].

Definition emptied : list TriggerConfig := [ trigger "test" "test.start" "test.end" ].

(** An activation with a terminal that lacks shell integration, and one
    without terminals where three are opened later. *)
Definition bare_terminal : activation :=
  {| terminals := [ {| shellIntegration := false |} ]; choice := Dismissed; opened := [] |}.

Definition no_terminal : activation :=
  {| terminals := []; choice := Dismissed;
     opened := [ ({| shellIntegration := false |}, Dismissed);
                 ({| shellIntegration := true |}, Dismissed);
                 ({| shellIntegration := false |}, LearnMore) ] |}.

(** The configuration at the start of a command, and at its end after a
    trigger with the same pattern was put before the one that matched. *)
Definition at_start : list TriggerConfig := [ trigger "make" "a.start" "a.end" ].

Definition at_end : list TriggerConfig :=
  [ trigger "make" "b.start" "b.end"; trigger "make" "a.start" "a.end" ].

(** An activation without terminals; one terminal is opened later, it
    lacks shell integration, and the warning is closed without an answer. *)
Definition dismissing : activation :=
  {| terminals := []; choice := Dismissed;
     opened := [ ({| shellIntegration := false |}, Dismissed) ] |}.

(** Events of another execution. *)
Definition other_events : list host_event :=
  [DidStart (execution 2 "test"); DidEnd (execution 2 "test")].

End Samples.


(** * Properties *)

(** ** Strings *)

Lemma split_not_nil sep s : split sep s ≠ [].
Proof. destruct s as [|c s]; simpl; [done|]. case_decide; [done|]. by destruct (split sep s). Qed.

Lemma join_cons sep part parts :
  parts ≠ [] → join sep (part :: parts) = part ++ sep :: join sep parts.
Proof. by destruct parts. Qed.

(** Joining the parts with the separator they were split at gives the
    string back. *)
Lemma join_split sep s : join sep (split sep s) = s.
Proof.
  induction s as [|c s IH]; [done|]. cbn [split].
  case_decide as Hc.
  - rewrite join_cons by apply split_not_nil. simpl. by rewrite IH, Hc.
  - pose proof (split_not_nil sep s) as Hne.
    destruct (split sep s) as [|part parts]; [done|].
    destruct parts as [|part' parts].
    + simpl in *. by rewrite IH.
    + rewrite join_cons by done. rewrite join_cons in IH by done.
      by rewrite <- IH.
Qed.


Lemma split_length_one sep s : sep ∉ s → split sep s = [s].
Proof.
  induction s as [|c s IH]; intros Hnot; simpl; [done|].
  rewrite decide_False by set_solver. rewrite IH by set_solver. done.
Qed.

Lemma split_length_sep sep s : sep ∈ s → (2 ≤ length (split sep s))%nat.
Proof.
  induction s as [|c s IH]; intros Hin; [by apply elem_of_nil in Hin|].
  cbn [split]. case_decide as Hc.
  - pose proof (split_not_nil sep s). destruct (split sep s); [done|]. simpl. lia.
  - assert (sep ∈ s) as Hs.
    { apply elem_of_cons in Hin as [Heq|Hs]; [congruence|done]. }
    specialize (IH Hs).
    destruct (split sep s) as [|part parts]; simpl in *; lia.
Qed.

Lemma startsWith_app prefix s : startsWith prefix (prefix ++ s) = true.
Proof. induction prefix as [|p prefix IH]; simpl; [done|]. by rewrite decide_True. Qed.

Lemma trimStart_blank s :
  Forall (fun c => is_white_space c = true) s → trimStart s = [].
Proof. induction 1 as [|c s Hc _ IH]; simpl; [done|]. by rewrite Hc. Qed.

Lemma trim_blank s :
  Forall (fun c => is_white_space c = true) s → trim s = [].
Proof. intros Hs. unfold trim, trimEnd. by rewrite (trimStart_blank s Hs). Qed.

(** What [trimStart] leaves does not begin with white space. *)
Lemma trimStart_head s c s' : trimStart s = c :: s' → is_white_space c = false.
Proof.
  induction s as [|d s IH]; simpl; [done|].
  destruct (is_white_space d) eqn:Hd; [done|]. intros [= -> _]. done.
Qed.

(** A string that [trim] empties was blank. *)
Lemma trim_nil_blank s :
  trim s = [] → Forall (fun c => is_white_space c = true) s.
Proof.
  unfold trim, trimEnd. intros Hs.
  assert (trimStart (reverse (trimStart s)) = []) as Hr.
  { apply (f_equal reverse) in Hs. by rewrite reverse_involutive in Hs. }
  assert (trimStart s = []) as Hs'.
  { destruct (trimStart s) as [|c s'] eqn:Ht; [done|].
    pose proof (trimStart_head _ _ _ Ht) as Hc.
    (* the kept part begins with c, so its reverse cannot be emptied *)
    assert (∀ l, trimStart (l ++ [c]) ≠ []) as Hne.
    { induction l as [|d l IHl]; simpl; [by rewrite Hc|].
      destruct (is_white_space d); [done|done]. }
    rewrite reverse_cons in Hr. by apply Hne in Hr. }
  clear Hs Hr. induction s as [|c s IH]; [done|]. simpl in Hs'.
  destruct (is_white_space c) eqn:Hc; [|done]. constructor; auto.
Qed.

(** ** The start handler *)

Section StartHandler.
Context `{RegExpEngine}.
Implicit Types (triggers pre post : list TriggerConfig) (t : TriggerConfig).
Implicit Types (m : gmap positive RegExp) (e : Execution).

(** Triggers that do not match are passed over, one effect each, and the
    loop goes on with what follows them. *)
Lemma start_loop_passed pre rest id commandLine m :
  Forall (fun t => matches t commandLine = false) pre →
  start_loop (pre ++ rest) id commandLine m =
    ((start_loop rest id commandLine m).1,
     (passed_over commandLine <$> pre) ++ (start_loop rest id commandLine m).2).
Proof.
  induction 1 as [|t pre Ht _ IH]; simpl.
  - by destruct (start_loop rest id commandLine m).
  - unfold matches, passed_over in *.
    destruct (new_RegExp (pattern t)) as [regex|].
    + rewrite Ht, IH. done.
    + rewrite IH. done.
Qed.

(** The loop stops at a trigger that matches. *)
Lemma start_loop_match t post id commandLine m regex :
  new_RegExp (pattern t) = Some regex →
  RegExp_test regex commandLine = true →
  start_loop (t :: post) id commandLine m =
    (<[id := regex]> m,
     Tested (pattern t) commandLine :: Recorded id :: fires PhaseStart t).
Proof. intros Hnew Htest. simpl. by rewrite Hnew, Htest. Qed.

Lemma start_loop_no_match triggers id commandLine m :
  Forall (fun t => matches t commandLine = false) triggers →
  start_loop triggers id commandLine m = (m, passed_over commandLine <$> triggers).
Proof.
  intros Hno. rewrite <- (app_nil_r triggers) at 1.
  rewrite start_loop_passed by done. simpl. by rewrite app_nil_r.
Qed.

Lemma filter_passed_over commandLine triggers :
  filter (fun x => is_action x = true) (passed_over commandLine <$> triggers) = [].
Proof.
  induction triggers as [|t triggers IH]; [done|]. rewrite fmap_cons.
  rewrite filter_cons_False; [done|].
  unfold passed_over. by destruct (new_RegExp (pattern t)).
Qed.

(** The start handler touches no other execution of the map. *)
Lemma start_loop_lookup_ne triggers id id' commandLine m :
  id ≠ id' → (start_loop triggers id commandLine m).1 !! id' = m !! id'.
Proof.
  intros Hne. induction triggers as [|t triggers IH]; simpl; [done|].
  destruct (new_RegExp (pattern t)) as [regex|].
  - destruct (RegExp_test regex commandLine); simpl.
    + by rewrite lookup_insert_ne.
    + by destruct (start_loop triggers id commandLine m).
  - by destruct (start_loop triggers id commandLine m).
Qed.

(** What it records is the expression of a trigger that accepted the
    line. *)
Lemma start_loop_lookup triggers id commandLine m :
  (start_loop triggers id commandLine m).1 !! id = m !! id ∨
  existsb (fun t => matches t commandLine) triggers = true.
Proof.
  induction triggers as [|t triggers IH]; simpl; [by left|].
  unfold matches at 1.
  destruct (new_RegExp (pattern t)) as [regex|].
  - destruct (RegExp_test regex commandLine); simpl; [by right|].
    destruct (start_loop triggers id commandLine m). done.
  - destruct (start_loop triggers id commandLine m). done.
Qed.

Lemma start_first_match pre t post e m commandLine regex :
  trim (commandLine_value e) = commandLine →
  commandLine ≠ [] →
  Forall (fun t' => matches t' commandLine = false) pre →
  new_RegExp (pattern t) = Some regex →
  RegExp_test regex commandLine = true →
  handleTerminalCommandStart (pre ++ t :: post) e m =
    (<[exec_id e := regex]> m,
     (passed_over commandLine <$> pre) ++
     Tested (pattern t) commandLine :: Recorded (exec_id e) :: fires PhaseStart t).
Proof.
  intros Htrim Hne Hpre Hnew Htest.
  unfold handleTerminalCommandStart. rewrite Htrim.
  destruct commandLine as [|c cl]; [done|].
  rewrite start_loop_passed by done.
  by rewrite (start_loop_match _ _ _ _ _ regex).
Qed.

(** C8: for every execution whose command line is empty or holds white
    space only, the start handler returns at once: no pattern is tested, no
    action is executed and the map of active executions is left as it was,
    whatever the triggers are (also one whose pattern accepts the empty
    string). *)
Theorem blank_command_is_ignored triggers e m :
  Forall (fun c => is_white_space c = true) (commandLine_value e) →
  handleTerminalCommandStart triggers e m = (m, []).
Proof.
  intros Hblank. unfold handleTerminalCommandStart.
  by rewrite (trim_blank _ Hblank).
Qed.



(** Taking an invalid trigger out of the configuration changes the report
    of that trigger and nothing else. *)
Lemma start_loop_without_invalid pre t post id commandLine m :
  new_RegExp (pattern t) = None →
  (start_loop (pre ++ t :: post) id commandLine m).1
    = (start_loop (pre ++ post) id commandLine m).1
  ∧ filter (fun x => x ≠ InvalidPattern (pattern t))
      (start_loop (pre ++ t :: post) id commandLine m).2
    = filter (fun x => x ≠ InvalidPattern (pattern t))
        (start_loop (pre ++ post) id commandLine m).2.
Proof.
  intros Hnew. induction pre as [|t' pre [IHm IHt]]; simpl.
  - rewrite Hnew. destruct (start_loop post id commandLine m) as [m' eff]. simpl.
    split; [done|]. rewrite filter_cons_False; [done|]. by intros Hneq.
  - destruct (new_RegExp (pattern t')) as [regex'|].
    + destruct (RegExp_test regex' commandLine); [done|].
      destruct (start_loop (pre ++ t :: post) id commandLine m) as [m1 eff1].
      destruct (start_loop (pre ++ post) id commandLine m) as [m2 eff2].
      simpl in *. split; [done|].
      rewrite !filter_cons_True by done. by rewrite IHt.
    + destruct (start_loop (pre ++ t :: post) id commandLine m) as [m1 eff1].
      destruct (start_loop (pre ++ post) id commandLine m) as [m2 eff2].
      simpl in *. split; [done|].
      rewrite !(filter_cons _ (InvalidPattern (pattern t'))).
      destruct (decide _); by rewrite IHt.
Qed.

(** C9: a trigger whose pattern is not a valid expression changes neither
    the map nor any effect of the start handler but its own error report;
    when the loop comes to it (line not blank, no match before it) it is
    reported ([InvalidPattern]) and the triggers after it are handled as if
    the configuration began with them. *)
Theorem invalid_pattern_is_skipped pre t post e m :
  new_RegExp (pattern t) = None →
  let reported := InvalidPattern (pattern t) in
  let with_it := handleTerminalCommandStart (pre ++ t :: post) e m in
  let without := handleTerminalCommandStart (pre ++ post) e m in
  with_it.1 = without.1
  ∧ filter (fun x => x ≠ reported) with_it.2 = filter (fun x => x ≠ reported) without.2
  ∧ (trim (commandLine_value e) ≠ [] →
     Forall (fun t' => matches t' (trim (commandLine_value e)) = false) pre →
     with_it =
       ((handleTerminalCommandStart post e m).1,
        (passed_over (trim (commandLine_value e)) <$> pre) ++
        reported :: (handleTerminalCommandStart post e m).2)).
Proof.
  intros Hnew reported with_it without. subst reported with_it without.
  unfold handleTerminalCommandStart.
  destruct (trim (commandLine_value e)) as [|c cl] eqn:Htrim; [done|].
  split_and!; [by apply start_loop_without_invalid..|].
  intros _ Hpre. rewrite start_loop_passed by done. simpl. rewrite Hnew.
  by destruct (start_loop post (exec_id e) (c :: cl) m).
Qed.

End StartHandler.

(** ** The end handler, and runs of both *)

Section EndHandler.
Context `{RegExpEngine}.
Implicit Types (triggers pre post : list TriggerConfig) (t : TriggerConfig).
Implicit Types (m : gmap positive RegExp) (e : Execution) (evs : list host_event).

Lemma end_errors_cons t triggers :
  end_errors (t :: triggers) =
    match new_RegExp (pattern t) with
    | Some _ => end_errors triggers
    | None => EndError (pattern t) :: end_errors triggers
    end.
Proof. unfold end_errors. simpl. by destruct (new_RegExp (pattern t)). Qed.

(** With expressions printed faithfully, the end loop finds the trigger
    that matched at start: a trigger before it that printed the same
    would have accepted the line first. *)
Lemma end_loop_first pre t post commandLine regex :
  toString_faithful →
  Forall (fun t' => matches t' commandLine = false) pre →
  new_RegExp (pattern t) = Some regex →
  RegExp_test regex commandLine = true →
  end_loop (pre ++ t :: post) regex = end_errors pre ++ fires PhaseEnd t.
Proof.
  intros Hfaith Hpre Hnew Htest.
  induction Hpre as [|t' pre Ht' _ IH]; [simpl|rewrite end_errors_cons; simpl].
  - rewrite Hnew.
    by destruct (decide (RegExp_toString regex = RegExp_toString regex)).
  - unfold matches in Ht'.
    destruct (new_RegExp (pattern t')) as [regex'|]; [|by rewrite IH].
    destruct (decide (RegExp_toString regex' = RegExp_toString regex)) as [Heq|]; [|done].
    rewrite (Hfaith _ _ Heq commandLine) in Ht'. congruence.
Qed.

Lemma end_errors_not_action triggers :
  filter (fun x => is_action x = true) (end_errors triggers) = [].
Proof.
  induction triggers as [|t triggers IH]; [done|]. rewrite end_errors_cons.
  destruct (new_RegExp (pattern t)); [done|]. by rewrite filter_cons_False.
Qed.

Lemma fires_actions ph t :
  filter (fun x => is_action x = true) (fires ph t) = fires ph t.
Proof. unfold fires. by destruct (present _). Qed.

(** The end loop executes one action at most, and never touches the map. *)
Lemma end_loop_one_action triggers regex :
  (length (filter (fun x => is_end_action x = true) (end_loop triggers regex)) ≤ 1)%nat.
Proof.
  induction triggers as [|t triggers IH]; simpl; [lia|].
  destruct (new_RegExp (pattern t)) as [regex'|].
  - destruct (decide _); [|done]. destruct (present _); simpl; lia.
  - by rewrite filter_cons_False.
Qed.

Lemma end_loop_keeps_map triggers regex :
  Forall (fun x => touches_map x = false) (end_loop triggers regex).
Proof.
  induction triggers as [|t triggers IH]; simpl; [done|].
  destruct (new_RegExp (pattern t)) as [regex'|].
  - destruct (decide _); [|done]. destruct (present _); by repeat constructor.
  - by constructor.
Qed.

Lemma start_loop_no_end_action triggers id commandLine m :
  Forall (fun x => is_end_action x = false) (start_loop triggers id commandLine m).2.
Proof.
  induction triggers as [|t triggers IH]; simpl; [done|].
  destruct (new_RegExp (pattern t)) as [regex|].
  - destruct (RegExp_test regex commandLine); simpl.
    + destruct (present _); by repeat constructor.
    + destruct (start_loop triggers id commandLine m). by constructor.
  - destruct (start_loop triggers id commandLine m). by constructor.
Qed.

(** A handler leaves the other executions of the map alone. *)
Lemma handle_lookup_ne triggers ev m id :
  event_id ev ≠ id → (handle triggers ev m).1 !! id = m !! id.
Proof.
  intros Hne. destruct ev as [e|e]; simpl in *.
  - unfold handleTerminalCommandStart.
    destruct (trim (commandLine_value e)); [done|].
    by apply start_loop_lookup_ne.
  - unfold handleTerminalCommandEnd.
    destruct (m !! exec_id e); [|done]. simpl. by rewrite lookup_delete_ne.
Qed.

Lemma run_cons triggers ev evs m :
  run triggers (ev :: evs) m =
    ((run triggers evs (handle triggers ev m).1).1,
     ((fun x => (event_id ev, x)) <$> (handle triggers ev m).2) ++
     (run triggers evs (handle triggers ev m).1).2).
Proof.
  simpl. destruct (handle triggers ev m) as [m1 t1]. simpl.
  by destruct (run triggers evs m1).
Qed.

Lemma run_lookup_frame triggers evs m id :
  Forall (fun ev => event_id ev ≠ id) evs →
  (run triggers evs m).1 !! id = m !! id.
Proof.
  intros Hevs. revert m. induction Hevs as [|ev evs Hev _ IH]; intros m; [done|].
  rewrite run_cons. simpl. rewrite IH. by apply handle_lookup_ne.
Qed.

(** The state in which the end event of an execution finds the map: the
    start handler ran, then events of other executions. *)
Lemma recorded_until_end pre t post e m commandLine regex evs :
  trim (commandLine_value e) = commandLine →
  commandLine ≠ [] →
  Forall (fun t' => matches t' commandLine = false) pre →
  new_RegExp (pattern t) = Some regex →
  RegExp_test regex commandLine = true →
  Forall (fun ev => event_id ev ≠ exec_id e) evs →
  (run (pre ++ t :: post) evs
     (handleTerminalCommandStart (pre ++ t :: post) e m).1).1 !! exec_id e = Some regex.
Proof.
  intros Htrim Hne Hpre Hnew Htest Hevs.
  rewrite run_lookup_frame by done.
  rewrite (start_first_match pre t post e m commandLine regex) by done.
  simpl. apply lookup_insert_eq.
Qed.

End EndHandler.

(** ** Start and end of one execution *)

Section Correlation.
Context `{RegExpEngine}.
Implicit Types (triggers pre post : list TriggerConfig) (t : TriggerConfig).
Implicit Types (m : gmap positive RegExp) (e : Execution) (evs : list host_event).

Lemma end_after_start pre t post e e' m commandLine regex evs :
  toString_faithful →
  trim (commandLine_value e) = commandLine →
  commandLine ≠ [] →
  Forall (fun t' => matches t' commandLine = false) pre →
  new_RegExp (pattern t) = Some regex →
  RegExp_test regex commandLine = true →
  Forall (fun ev => event_id ev ≠ exec_id e) evs →
  exec_id e' = exec_id e →
  let triggers := pre ++ t :: post in
  let m' := (run triggers evs (handleTerminalCommandStart triggers e m).1).1 in
  handleTerminalCommandEnd triggers e' m' =
    (delete (exec_id e) m', Removed (exec_id e) :: end_errors pre ++ fires PhaseEnd t).
Proof.
  intros Hfaith Htrim Hne Hpre Hnew Htest Hevs Hid triggers m'.
  unfold handleTerminalCommandEnd. rewrite Hid.
  subst m' triggers.
  rewrite (recorded_until_end pre t post e m commandLine regex evs) by done.
  by rewrite (end_loop_first pre t post commandLine regex).
Qed.

(** C1, amended: an execution whose start event matched trigger [t] (the
    first of the configuration that accepts the trimmed line) and whose end
    event arrives after events of other executions, with the configuration
    read at the end event the same as the one read at the start event: the
    end handler removes the record and executes the onEnd of [t], if it has
    one, and no other action.  Expressions print faithfully. *)
Theorem end_fires_the_trigger_that_started pre t post e e' m commandLine regex evs :
  toString_faithful →
  trim (commandLine_value e) = commandLine →
  commandLine ≠ [] →
  Forall (fun t' => matches t' commandLine = false) pre →
  new_RegExp (pattern t) = Some regex →
  RegExp_test regex commandLine = true →
  Forall (fun ev => event_id ev ≠ exec_id e) evs →
  exec_id e' = exec_id e →
  let triggers := pre ++ t :: post in
  let m' := (run triggers evs (handleTerminalCommandStart triggers e m).1).1 in
  handleTerminalCommandEnd triggers e' m' =
    (delete (exec_id e) m', Removed (exec_id e) :: end_errors pre ++ fires PhaseEnd t)
  ∧ filter (fun x => is_action x = true) (handleTerminalCommandEnd triggers e' m').2
    = fires PhaseEnd t.
Proof.
  intros Hfaith Htrim Hne Hpre Hnew Htest Hevs Hid triggers m'.
  pose proof (end_after_start pre t post e e' m commandLine regex evs
                Hfaith Htrim Hne Hpre Hnew Htest Hevs Hid) as Hend.
  simpl in Hend. fold triggers in Hend. fold m' in Hend.
  split; [done|]. rewrite Hend. simpl.
  rewrite filter_cons_False by done.
  by rewrite list.filter_app, end_errors_not_action, fires_actions.
Qed.

(** C2, amended: [t] is the first trigger of the configuration that
    accepts the trimmed command line, and the configuration read at the end
    event is the one read at the start event.  When the trimmed line is not
    empty, the onStart of [t], if it is there and not empty, is executed by
    the start handler, and its onEnd, if it is there and not empty, by the
    end handler of the same execution; these are the only actions executed,
    so that a trigger that matches but comes after [t] is not fired.  When
    the trimmed line is empty the start handler does nothing, although [t]
    accepts it, and the end handler of an execution that was not in the map
    does nothing either. *)
Theorem first_match_fires_start_and_end pre t post e e' m commandLine regex evs :
  toString_faithful →
  trim (commandLine_value e) = commandLine →
  Forall (fun t' => matches t' commandLine = false) pre →
  new_RegExp (pattern t) = Some regex →
  RegExp_test regex commandLine = true →
  Forall (fun ev => event_id ev ≠ exec_id e) evs →
  exec_id e' = exec_id e →
  let triggers := pre ++ t :: post in
  let started := handleTerminalCommandStart triggers e m in
  let ended := handleTerminalCommandEnd triggers e' (run triggers evs started.1).1 in
  (commandLine ≠ [] →
   (∀ action, onStart t = Some action → action ≠ [] →
              Executed PhaseStart action ∈ started.2)
   ∧ (∀ action, onEnd t = Some action → action ≠ [] →
                Executed PhaseEnd action ∈ ended.2)
   ∧ filter (fun x => is_action x = true) started.2 = fires PhaseStart t
   ∧ filter (fun x => is_action x = true) ended.2 = fires PhaseEnd t)
  ∧ (commandLine = [] →
     started = (m, [])
     ∧ (m !! exec_id e = None → ended = ((run triggers evs m).1, []))).
Proof.
  intros Hfaith Htrim Hpre Hnew Htest Hevs Hid triggers started ended.
  split.
  - intros Hne.
    assert (started = (<[exec_id e := regex]> m,
                       (passed_over commandLine <$> pre) ++
                       Tested (pattern t) commandLine :: Recorded (exec_id e)
                       :: fires PhaseStart t)) as Hstarted.
    { subst started triggers. by apply start_first_match. }
    assert (ended.2 = Removed (exec_id e) :: end_errors pre ++ fires PhaseEnd t) as Hended.
    { subst ended started triggers.
      by rewrite (end_after_start pre t post e e' m commandLine regex evs). }
    rewrite Hended, Hstarted. cbn [snd]. split_and!.
    + intros action Hfield Haction.
      apply elem_of_app. right. do 2 apply list_elem_of_further.
      unfold fires. rewrite Hfield. destruct action; [done|]. simpl. apply list_elem_of_here.
    + intros action Hfield Haction.
      apply list_elem_of_further, elem_of_app. right.
      unfold fires. rewrite Hfield. destruct action; [done|]. simpl. apply list_elem_of_here.
    + rewrite list.filter_app, filter_passed_over. simpl.
      rewrite !filter_cons_False by done. apply fires_actions.
    + rewrite filter_cons_False by done.
      by rewrite list.filter_app, end_errors_not_action, fires_actions.
  - intros Hblank.
    assert (started = (m, [])) as Hstarted.
    { subst started. unfold handleTerminalCommandStart. by rewrite Htrim, Hblank. }
    split; [done|]. intros Hfresh.
    subst ended. rewrite Hstarted. cbn [fst].
    unfold handleTerminalCommandEnd. rewrite Hid, run_lookup_frame by done.
    by rewrite Hfresh.
Qed.

(** C6: an execution that is not yet in the map and whose trimmed command
    line no trigger accepts: the start handler leaves the map as it was and
    executes no action; after events of other executions, the end handler
    of this execution does nothing and leaves the map as it was. *)
Theorem unmatched_command_changes_nothing triggers e m :
  Forall (fun t => matches t (trim (commandLine_value e)) = false) triggers →
  m !! exec_id e = None →
  (handleTerminalCommandStart triggers e m).1 = m
  ∧ filter (fun x => is_action x = true) (handleTerminalCommandStart triggers e m).2 = []
  ∧ ∀ evs e',
      Forall (fun ev => event_id ev ≠ exec_id e) evs →
      exec_id e' = exec_id e →
      handleTerminalCommandEnd triggers e' (run triggers evs m).1
      = ((run triggers evs m).1, []).
Proof.
  intros Hno Hfresh.
  assert (handleTerminalCommandStart triggers e m =
          (m, match trim (commandLine_value e) with
              | [] => []
              | _ => passed_over (trim (commandLine_value e)) <$> triggers
              end)) as Hstart.
  { unfold handleTerminalCommandStart.
    destruct (trim (commandLine_value e)) as [|c cl]; [done|].
    by apply start_loop_no_match. }
  rewrite Hstart. simpl. split_and!; [done| |].
  - destruct (trim (commandLine_value e)); [done|]. apply filter_passed_over.
  - intros evs e' Hevs Hid. unfold handleTerminalCommandEnd.
    rewrite Hid, run_lookup_frame by done. by rewrite Hfresh.
Qed.

End Correlation.

(** ** The map of active executions over a run *)

Section ActiveExecutions.
Context `{RegExpEngine}.
Implicit Types (triggers : list TriggerConfig) (ev : host_event).
Implicit Types (m : gmap positive RegExp) (e : Execution) (evs : list host_event).

Lemma matched_starts_cons triggers ev evs :
  matched_starts triggers (ev :: evs) =
    if matched_start triggers ev
    then event_id ev :: matched_starts triggers evs
    else matched_starts triggers evs.
Proof.
  unfold matched_starts. destruct (matched_start triggers ev) eqn:Hev.
  - by rewrite filter_cons_True.
  - rewrite filter_cons_False; [done|]. by rewrite Hev.
Qed.

(** An entry that a handler adds comes from a start event that matched. *)
Lemma handle_lookup_some triggers ev m id :
  is_Some ((handle triggers ev m).1 !! id) →
  is_Some (m !! id) ∨ (matched_start triggers ev = true ∧ event_id ev = id).
Proof.
  destruct (decide (event_id ev = id)) as [<-|Hne];
    [|rewrite handle_lookup_ne by done; by left].
  destruct ev as [e|e]; simpl.
  - unfold handleTerminalCommandStart.
    destruct (trim (commandLine_value e)) as [|c cl] eqn:Htrim; [by left|].
    destruct (start_loop_lookup triggers (exec_id e) (c :: cl) m) as [->|Hex];
      [by left|by right].
  - unfold handleTerminalCommandEnd.
    destruct (m !! exec_id e) eqn:Hm; simpl.
    + rewrite lookup_delete_eq. by intros [? ?].
    + rewrite Hm. by left.
Qed.

Lemma run_lookup_some triggers evs m id :
  is_Some ((run triggers evs m).1 !! id) →
  is_Some (m !! id) ∨ id ∈ matched_starts triggers evs.
Proof.
  revert m. induction evs as [|ev evs IH]; intros m; [by left|].
  rewrite run_cons. simpl. intros Hsome.
  rewrite matched_starts_cons.
  destruct (IH _ Hsome) as [Hh|Hin].
  - destruct (handle_lookup_some _ _ _ _ Hh) as [Hm|[-> <-]]; [by left|].
    right. apply list_elem_of_here.
  - right. destruct (matched_start triggers ev); [by apply list_elem_of_further|done].
Qed.

Lemma end_actions_tagged id id' (l : list effect) :
  length (end_actions id ((fun x => (id', x)) <$> l)) =
    if decide (id' = id) then length (filter (fun x => is_end_action x = true) l) else 0%nat.
Proof.
  unfold end_actions. induction l as [|x l IH]; [by destruct (decide _)|].
  rewrite fmap_cons. revert IH.
  destruct (decide (id' = id)) as [->|Hne]; intros IH.
  - destruct (is_end_action x) eqn:Hx.
    + rewrite !filter_cons_True by done. simpl. by rewrite IH.
    + rewrite !filter_cons_False; [done|by rewrite Hx|]. simpl. rewrite Hx. by intros [_ ?].
  - rewrite filter_cons_False; [done|]. simpl. by intros [? _].
Qed.

Lemma no_end_action_filter (l : list effect) :
  Forall (fun x => is_end_action x = false) l →
  filter (fun x => is_end_action x = true) l = [].
Proof.
  induction 1 as [|x l Hx _ IH]; [done|].
  rewrite filter_cons_False; [done|by rewrite Hx].
Qed.

(** One step: the onEnd actions executed for [id] plus its entry in the
    map afterwards are paid for by its entry before, or by a start event of
    [id] that matched. *)
Lemma handle_end_actions triggers ev m id :
  (length (end_actions id ((fun x => (event_id ev, x)) <$> (handle triggers ev m).2))
   + occupied (handle triggers ev m).1 id
   ≤ starts_for triggers ev id + occupied m id)%nat.
Proof.
  rewrite end_actions_tagged. unfold occupied, starts_for.
  destruct (decide (event_id ev = id)) as [Heq|Hne];
    [|rewrite handle_lookup_ne by done; lia].
  pose proof (handle_lookup_some triggers ev m id) as Hsome.
  destruct ev as [e|e]; simpl in *.
  - assert (filter (fun x => is_end_action x = true)
              (handleTerminalCommandStart triggers e m).2 = []) as ->.
    { unfold handleTerminalCommandStart.
      destruct (trim (commandLine_value e)); [done|].
      apply no_end_action_filter, start_loop_no_end_action. }
    simpl. destruct ((handleTerminalCommandStart triggers e m).1 !! id) eqn:Hafter; [|lia].
    destruct Hsome as [[regex Hm]|Hstart]; [done|rewrite Hm; lia|].
    rewrite decide_True by done. lia.
  - unfold handleTerminalCommandEnd. rewrite Heq.
    destruct (m !! id) as [regex|] eqn:Hm; simpl.
    + rewrite lookup_delete_eq. rewrite filter_cons_False by done.
      pose proof (end_loop_one_action triggers regex). lia.
    + rewrite Hm. lia.
Qed.

Lemma run_end_actions triggers evs m id :
  (length (end_actions id (run triggers evs m).2)
   ≤ length (filter (fun x => x = id) (matched_starts triggers evs)) + occupied m id)%nat.
Proof.
  revert m. induction evs as [|ev evs IH]; intros m; [simpl; lia|].
  rewrite run_cons. cbn [snd]. unfold end_actions at 1.
  rewrite list.filter_app, length_app.
  specialize (IH (handle triggers ev m).1).
  pose proof (handle_end_actions triggers ev m id) as Hstep.
  assert (length (filter (fun x => x = id) (matched_starts triggers (ev :: evs)))
          = starts_for triggers ev id
            + length (filter (fun x => x = id) (matched_starts triggers evs)))%nat as ->.
  { rewrite matched_starts_cons. unfold starts_for.
    destruct (matched_start triggers ev).
    - destruct (decide (event_id ev = id)) as [Heq|Hne].
      + rewrite filter_cons_True by done. by rewrite decide_True.
      + rewrite filter_cons_False by done. rewrite decide_False; [done|]. by intros [_ ?].
    - rewrite decide_False; [done|]. by intros [? _]. }
  unfold end_actions in *. lia.
Qed.

(** C7: in any run from the empty map, the executions in the map are
    among those whose start event matched a trigger; the end handler takes
    the execution out of the map before it does anything else, so that a
    second end event of the execution does nothing; and the onEnd actions
    executed for an execution are no more than its start events that
    matched (one at most, for an execution that starts once). *)
Theorem active_executions_are_matched_and_end_once triggers evs e :
  dom (run triggers evs ∅).1 ⊆ list_to_set (matched_starts triggers evs)
  ∧ (∀ m, let ended := handleTerminalCommandEnd triggers e m in
          ended.1 !! exec_id e = None
          ∧ (ended = (m, []) ∨
             ∃ rest, ended.2 = Removed (exec_id e) :: rest
                     ∧ Forall (fun x => touches_map x = false) rest)
          ∧ handleTerminalCommandEnd triggers e ended.1 = (ended.1, []))
  ∧ (length (end_actions (exec_id e) (run triggers evs ∅).2)
     ≤ length (filter (fun x => x = exec_id e) (matched_starts triggers evs)))%nat.
Proof.
  split_and!.
  - intros id Hin. apply elem_of_dom in Hin.
    apply run_lookup_some in Hin as [[? Hempty]|Hin]; [by rewrite lookup_empty in Hempty|].
    by apply elem_of_list_to_set.
  - intros m. unfold handleTerminalCommandEnd.
    destruct (m !! exec_id e) as [regex|] eqn:Hm; simpl.
    + rewrite lookup_delete_eq. split_and!; [done| |done].
      right. eexists. split; [done|]. apply end_loop_keeps_map.
    + rewrite Hm. split_and!; [done|by left|done].
  - pose proof (run_end_actions triggers evs ∅ (exec_id e)) as Hle.
    unfold occupied in Hle. rewrite lookup_empty in Hle. lia.
Qed.

End ActiveExecutions.

(** ** Actions *)

Section ExecuteAction.
Context `{ExtensionHost}.
Implicit Types (action extensionId apiPath : jsstring) (segments : list jsstring).

(** The loop of [executeAction] stops at the first falsy value on the
    path; when there is none it ends on the value the path reaches. *)
Lemma follow_along target seen segments :
  match follow target seen segments with
  | inl _ => existsb (fun v => negb (truthy v)) (along target segments) = true
  | inr v => existsb (fun v => negb (truthy v)) (along target segments) = false
             ∧ v = reach target segments
  end.
Proof.
  revert target seen. induction segments as [|key segments IH]; intros target seen; [done|].
  simpl. destruct (truthy (optional_get target key)) eqn:Htruthy; [|done].
  simpl. apply IH.
Qed.

Lemma follow_failed target seen segments failed :
  follow target seen segments = inl failed →
  ∃ n, failed = seen ++ take (S n) segments ∧ (n < length segments)%nat.
Proof.
  revert target seen. induction segments as [|key segments IH]; intros target seen; [done|].
  simpl. destruct (truthy (optional_get target key)).
  - intros Hf. apply IH in Hf as (n & -> & Hn). exists (S n).
    split; [by rewrite <- app_assoc|lia].
  - intros [= <-]. exists 0%nat. split; [by rewrite take_0|lia].
Qed.

(** A path is its intermediate segments and its last one. *)
Lemma path_last segments :
  segments ≠ [] →
  segments = intermediate segments ++ [default [] (segments !! (length segments - 1)%nat)].
Proof.
  intros Hne. unfold intermediate.
  destruct (exists_last Hne) as (init & x & ->).
  rewrite length_app. simpl.
  replace (length init + 1 - 1)%nat with (length init) by lia.
  rewrite take_app_length.
  rewrite lookup_app_r by lia. by rewrite Nat.sub_diag.
Qed.

Lemma reach_last segments target :
  segments ≠ [] →
  reach target segments =
    optional_get (reach target (intermediate segments))
      (default [] (segments !! (length segments - 1)%nat)).
Proof.
  intros Hne. rewrite (path_last segments Hne) at 1.
  unfold reach. by rewrite foldl_app.
Qed.

(** [executeAction] once the action is parsed and the extension
    activated: it stops at a falsy value on the way, calls the value
    reached when that is a function, and rejects otherwise. *)
Lemma executeAction_activated action extension api :
  startsWith (lit "ext:") action = true →
  (2 ≤ length (split colon (drop 4 action)))%nat →
  getExtension (extension_part action) = Some extension →
  activate extension = Some api →
  let path := path_part action in
  if existsb (fun v => negb (truthy v)) (along api (intermediate path))
  then ∃ err, executeAction action = ([Activate extension], Some err)
  else if typeof_function (reach api path)
       then executeAction action =
              ([Activate extension;
                CallMethod (reach api path) (reach api (intermediate path))], None)
       else ∃ err, executeAction action = ([Activate extension], Some err).
Proof.
  intros Hext Hparts Hget Hact path.
  unfold executeAction. rewrite Hext.
  rewrite bool_decide_eq_false_2 by lia.
  unfold extension_part in Hget. rewrite Hget, Hact.
  change (split dot (join colon (tail (split colon (drop 4 action))))) with path.
  change (take (length path - 1) path) with (intermediate path).
  pose proof (follow_along api [] (intermediate path)) as Hfollow.
  destruct (follow api [] (intermediate path)) as [failed|target].
  { rewrite Hfollow. by eexists. }
  destruct Hfollow as [-> ->].
  rewrite (reach_last path api) by apply split_not_nil.
  unfold optional_get at 1 2.
  destruct (is_nullish (reach api (intermediate path))).
  - rewrite undefined_not_function. by eexists.
  - destruct (typeof_function _); [done|by eexists].
Qed.



(** C4, amended: on an action that begins with [ext:], [executeAction]
    rejects without invoking a method or a command exactly when the text
    after [ext:] has fewer than two parts, or the extension is not
    installed, or its activation fails, or an intermediate segment of the
    path resolves to a falsy value, or the value at the last segment is not
    a function. *)
Theorem ext_action_rejects_exactly_when action :
  startsWith (lit "ext:") action = true →
  rejects_without_invoking action = rejection_causes action.
Proof.
  intros Hext. unfold rejects_without_invoking, rejection_causes.
  destruct (bool_decide (length (split colon (drop 4 action)) < 2)%nat) eqn:Hparts.
  { unfold executeAction. by rewrite Hext, Hparts. }
  apply bool_decide_eq_false in Hparts. simpl.
  destruct (getExtension (extension_part action)) as [extension|] eqn:Hget; cycle 1.
  { unfold executeAction. rewrite Hext. rewrite bool_decide_eq_false_2 by done.
    unfold extension_part in Hget. by rewrite Hget. }
  destruct (activate extension) as [api|] eqn:Hact; cycle 1.
  { unfold executeAction. rewrite Hext. rewrite bool_decide_eq_false_2 by done.
    unfold extension_part in Hget. by rewrite Hget, Hact. }
  pose proof (executeAction_activated action extension api Hext ltac:(lia) Hget Hact) as Hrun.
  simpl in Hrun.
  destruct (existsb _ _); [by destruct Hrun as [err ->]|].
  destruct (typeof_function _); [by rewrite Hrun|by destruct Hrun as [err ->]].
Qed.

End ExecuteAction.

(** ** The Shell Integration warning *)

Lemma checkShellIntegration_recorded a shown :
  checkShellIntegration a (true, shown) = (true, shown).
Proof. done. Qed.

Lemma activations_recorded l shown : activations l (true, shown) = (true, shown).
Proof.
  unfold activations. induction l as [|a l IH]; [done|].
  simpl. apply IH.
Qed.

(** An activation that finds terminals shows one warning at most and
    records the flag. *)
Lemma checkShellIntegration_terminals a shown :
  terminals a ≠ [] →
  ∃ shown', checkShellIntegration a (false, shown) = (true, shown')
            ∧ (shown ≤ shown' ≤ S shown)%nat.
Proof.
  intros Hne. unfold checkShellIntegration.
  destruct (terminals a) as [|terminal rest] eqn:Hterminals; [done|].
  rewrite bool_decide_eq_false_2 by done. rewrite andb_false_r.
  destruct (negb _); simpl.
  - destruct (choice a); eexists; split; try done; lia.
  - eexists; split; [done|lia].
Qed.

(** Once an activation has left the persistent flag recorded, the
    activations that come after it show no warning: the count of warnings
    shown stays where it was, and the flag stays recorded. *)
Theorem warning_is_not_shown_again first later st :
  (checkShellIntegration first st).1 = true →
  activations later (checkShellIntegration first st) = checkShellIntegration first st.
Proof.
  destruct (checkShellIntegration first st) as [flag shown]. simpl.
  intros ->. apply activations_recorded.
Qed.

(** ** More on actions *)

Lemma startsWith_drop prefix s :
  startsWith prefix s = true → s = prefix ++ drop (length prefix) s.
Proof.
  revert s. induction prefix as [|p prefix IH]; intros [|c s]; simpl; try done.
  case_decide; [|done]. intros Hs. subst. f_equal. by apply IH.
Qed.

Lemma split_head_no_sep sep s part parts :
  split sep s = part :: parts → sep ∉ part.
Proof.
  revert part parts. induction s as [|c s IH]; intros part parts; simpl.
  - intros [= <- <-]. apply not_elem_of_nil.
  - case_decide as Hc.
    + intros [= <- <-]. apply not_elem_of_nil.
    + destruct (split sep s) as [|part' parts'] eqn:Hsplit.
      * intros [= <- <-]. intros Hin. apply elem_of_cons in Hin as [Hin|Hin]; [done|].
        by apply elem_of_nil in Hin.
      * intros [= <- <-]. intros Hin. apply elem_of_cons in Hin as [Hin|Hin]; [done|].
        by apply (IH part' parts').
Qed.

(** Fewer than two parts: no separator at all. *)
Lemma split_short sep s : (length (split sep s) < 2)%nat ↔ sep ∉ s.
Proof.
  split.
  - intros Hlen Hin. apply (split_length_sep sep) in Hin. lia.
  - intros Hnot. rewrite split_length_one by done. simpl. lia.
Qed.

Section ExecuteActionMore.
Context `{ExtensionHost}.
Implicit Types (action : jsstring).

(** X1: the extension identifier and the api path that [executeAction]
    takes from an [ext:] action with at least two parts put the action back
    together, and the identifier holds no colon. *)
Theorem ext_action_parts_round_trip action :
  startsWith (lit "ext:") action = true →
  (2 ≤ length (split colon (drop 4 action)))%nat →
  action = lit "ext:" ++ extension_part action ++
           colon :: join colon (tail (split colon (drop 4 action)))
  ∧ colon ∉ extension_part action.
Proof.
  intros Hext Hparts. unfold extension_part.
  pose proof (join_split colon (drop 4 action)) as Hjoin.
  pose proof (split_head_no_sep colon (drop 4 action)) as Hhead.
  destruct (split colon (drop 4 action)) as [|part parts]; [simpl in Hparts; lia|].
  destruct parts as [|part' parts]; [simpl in Hparts; lia|].
  rewrite join_cons in Hjoin by done.
  split; [|by eapply Hhead].
  change (action = lit "ext:" ++ (part ++ colon :: join colon (part' :: parts))).
  rewrite Hjoin. by apply (startsWith_drop (lit "ext:")).
Qed.

(** X2: [executeAction] rejects with the invalid-syntax error exactly on
    the actions that begin with [ext:] and hold no colon after it. *)
Theorem invalid_syntax_exactly_when action :
  (executeAction action).2 = Some (InvalidSyntax action)
  ↔ startsWith (lit "ext:") action = true ∧ colon ∉ drop 4 action.
Proof.
  unfold executeAction.
  destruct (startsWith (lit "ext:") action) eqn:Hext; [|simpl; split; [done|by intros [? _]]].
  destruct (bool_decide (length (split colon (drop 4 action)) < 2)%nat) eqn:Hparts.
  - apply bool_decide_eq_true in Hparts. apply split_short in Hparts. done.
  - apply bool_decide_eq_false in Hparts. rewrite split_short in Hparts.
    split; [|by intros [_ ?]]. intros Herr. exfalso. revert Herr.
    destruct (getExtension _); [|done].
    destruct (activate _); [|done].
    destruct (follow _ _ _); [done|].
    destruct (is_nullish _); [done|].
    by destruct (typeof_function _).
Qed.

(** X3: what [executeAction] asks of the host has one of four shapes: the
    editor command alone, for an action without the [ext:] prefix; nothing;
    the activation of the extension that the action names; that activation
    followed by the call of one method, which is a function.  So an [ext:]
    action never falls back to an editor command, no method is called before
    the activation, and the promise is rejected unless a command or a method
    was invoked. *)
Theorem executeAction_calls action :
  (startsWith (lit "ext:") action = false
   ∧ executeAction action = ([ExecuteCommand action], None))
  ∨ (startsWith (lit "ext:") action = true
     ∧ ((∃ err, executeAction action = ([], Some err))
        ∨ (∃ extension err,
             getExtension (extension_part action) = Some extension
             ∧ executeAction action = ([Activate extension], Some err))
        ∨ (∃ extension api method target,
             getExtension (extension_part action) = Some extension
             ∧ activate extension = Some api
             ∧ typeof_function method = true
             ∧ is_nullish target = false
             ∧ executeAction action =
                 ([Activate extension; CallMethod method target], None)))).
Proof.
  unfold executeAction, extension_part.
  destruct (startsWith (lit "ext:") action) eqn:Hext; [right|by left].
  split; [done|].
  destruct (bool_decide _); [left; by eexists|].
  destruct (getExtension _) as [extension|] eqn:Hget; [|left; by eexists].
  right.
  destruct (activate extension) as [api|] eqn:Hact; [|left; by eexists _, _].
  destruct (follow _ _ _) as [failed|target]; [left; by eexists _, _|].
  destruct (is_nullish target) eqn:Hnull; [left; by eexists _, _|].
  destruct (typeof_function _) eqn:Hfun; [|left; by eexists _, _].
  right. by eexists _, _, _, _.
Qed.

(** The walk stops at the first falsy value and names the path up to it. *)
Lemma follow_first_falsy target seen segments n v :
  along target segments !! n = Some v →
  truthy v = false →
  Forall (fun v' => truthy v' = true) (take n (along target segments)) →
  follow target seen segments = inl (seen ++ take (S n) segments).
Proof.
  revert target seen n. induction segments as [|key segments IH]; intros target seen n; [done|].
  destruct n as [|n]; simpl.
  - intros [= <-] Hv _. by rewrite Hv, take_0.
  - intros Hn Hv Hbefore. apply Forall_cons_1 in Hbefore as [-> Hbefore].
    rewrite (IH _ _ n) by done. by rewrite <- app_assoc.
Qed.

(** X4: when the values along the path are truthy up to a segment whose
    value is falsy, and that segment is not the last, [executeAction]
    rejects with the path-not-found error, and the place it reports is the
    path up to and including that segment. *)
Theorem api_path_not_found_names_first_falsy action extension api n v :
  startsWith (lit "ext:") action = true →
  (2 ≤ length (split colon (drop 4 action)))%nat →
  getExtension (extension_part action) = Some extension →
  activate extension = Some api →
  along api (intermediate (path_part action)) !! n = Some v →
  truthy v = false →
  Forall (fun v' => truthy v' = true)
    (take n (along api (intermediate (path_part action)))) →
  executeAction action =
    ([Activate extension],
     Some (ApiPathNotFound (join colon (tail (split colon (drop 4 action))))
             (join dot (take (S n) (path_part action))))).
Proof.
  intros Hext Hparts Hget Hact Hn Hv Hbefore.
  unfold executeAction. rewrite Hext.
  rewrite bool_decide_eq_false_2 by lia.
  unfold extension_part in Hget. rewrite Hget, Hact.
  change (split dot (join colon (tail (split colon (drop 4 action)))))
    with (path_part action).
  change (take (length (path_part action) - 1) (path_part action))
    with (intermediate (path_part action)).
  rewrite (follow_first_falsy api [] _ n v) by done. simpl.
  do 4 f_equal. unfold intermediate. rewrite take_take.
  f_equal. apply Nat.min_l.
  apply lookup_lt_Some in Hn.
  assert (∀ target segments, length (along target segments) = length segments) as Hlen.
  { intros target segments. revert target.
    induction segments as [|k segments IH]; intros target; simpl; [done|by rewrite IH]. }
  rewrite Hlen in Hn. unfold intermediate in Hn. rewrite length_take in Hn. lia.
Qed.

End ExecuteActionMore.

(** ** More on the handlers *)

Lemma trimStart_app_blank before s :
  Forall (fun c => is_white_space c = true) before →
  trimStart (before ++ s) = trimStart s.
Proof. induction 1 as [|c before Hc _ IH]; simpl; [done|]. by rewrite Hc. Qed.

Lemma trimStart_app s after :
  trimStart (s ++ after) =
    match trimStart s with
    | [] => trimStart after
    | kept => kept ++ after
    end.
Proof.
  induction s as [|c s IH]; simpl; [by destruct (trimStart after)|].
  by destruct (is_white_space c).
Qed.

Lemma trimEnd_app_blank s after :
  Forall (fun c => is_white_space c = true) after →
  trimEnd (s ++ after) = trimEnd s.
Proof.
  intros Hafter. unfold trimEnd. rewrite reverse_app.
  rewrite trimStart_app_blank; [done|]. by apply Forall_reverse.
Qed.

(** White space around a string does not change what [trim] gives. *)
Lemma trim_surrounded before s after :
  Forall (fun c => is_white_space c = true) before →
  Forall (fun c => is_white_space c = true) after →
  trim (before ++ s ++ after) = trim s.
Proof.
  intros Hbefore Hafter. unfold trim.
  rewrite trimStart_app_blank by done. rewrite trimStart_app.
  destruct (trimStart s) as [|c kept] eqn:Hs.
  - by rewrite (trimStart_blank after).
  - by rewrite trimEnd_app_blank.
Qed.

Section HandlersMore.
Context `{RegExpEngine}.
Implicit Types (triggers pre post : list TriggerConfig) (t : TriggerConfig).
Implicit Types (m : gmap positive RegExp) (e : Execution) (evs : list host_event).

(** X5: white space before and after the command line changes nothing in
    what the start handler does: the patterns see the trimmed line. *)
Theorem surrounding_white_space_is_ignored triggers e e' m before after :
  Forall (fun c => is_white_space c = true) before →
  Forall (fun c => is_white_space c = true) after →
  exec_id e' = exec_id e →
  commandLine_value e' = before ++ commandLine_value e ++ after →
  handleTerminalCommandStart triggers e' m = handleTerminalCommandStart triggers e m.
Proof.
  intros Hbefore Hafter Hid Hline. unfold handleTerminalCommandStart.
  by rewrite Hline, trim_surrounded, Hid.
Qed.

Lemma fires_from_configuration ph t a :
  Executed ph a ∈ fires ph t → a ≠ [] ∧ action_field ph t = Some a.
Proof.
  unfold fires, action_field.
  destruct ph; simpl;
    [destruct (onStart t) as [[|c action]|]|destruct (onEnd t) as [[|c action]|]];
    simpl; intros Hin; try by apply elem_of_nil in Hin.
  all: apply list_elem_of_singleton in Hin; by injection Hin as ->.
Qed.

Lemma start_loop_effects triggers id commandLine m :
  (length (filter (fun x => is_action x = true) (start_loop triggers id commandLine m).2) ≤ 1)%nat
  ∧ ∀ ph a, Executed ph a ∈ (start_loop triggers id commandLine m).2 →
            ph = PhaseStart ∧ a ≠ [] ∧ ∃ t, t ∈ triggers ∧ onStart t = Some a.
Proof.
  induction triggers as [|t triggers [IHn IHa]]; simpl.
  - split; [lia|]. intros ph a Hin. by apply elem_of_nil in Hin.
  - destruct (new_RegExp (pattern t)) as [regex|].
    + destruct (RegExp_test regex commandLine); simpl.
      * split.
        -- rewrite !filter_cons_False by done. unfold fires.
           destruct (present _); simpl; lia.
        -- intros ph a Hin.
           apply elem_of_cons in Hin as [?|Hin]; [done|].
           apply elem_of_cons in Hin as [?|Hin]; [done|].
           assert (ph = PhaseStart) as ->.
           { unfold fires in Hin. destruct (present _); [|by apply elem_of_nil in Hin].
             apply list_elem_of_singleton in Hin. by injection Hin. }
           apply (fires_from_configuration PhaseStart t a) in Hin as [Ha Hfield].
           split_and!; [done..|]. exists t. split; [apply list_elem_of_here|done].
      * destruct (start_loop triggers id commandLine m) as [m' eff]. simpl in *.
        split; [by rewrite filter_cons_False|].
        intros ph a Hin. apply elem_of_cons in Hin as [?|Hin]; [done|].
        destruct (IHa ph a Hin) as (-> & Ha & t' & Ht' & Hfield).
        split_and!; [done..|]. exists t'. split; [by apply list_elem_of_further|done].
    + destruct (start_loop triggers id commandLine m) as [m' eff]. simpl in *.
      split; [by rewrite filter_cons_False|].
      intros ph a Hin. apply elem_of_cons in Hin as [?|Hin]; [done|].
      destruct (IHa ph a Hin) as (-> & Ha & t' & Ht' & Hfield).
      split_and!; [done..|]. exists t'. split; [by apply list_elem_of_further|done].
Qed.

Lemma end_loop_effects triggers regex :
  (length (filter (fun x => is_action x = true) (end_loop triggers regex)) ≤ 1)%nat
  ∧ ∀ ph a, Executed ph a ∈ end_loop triggers regex →
            ph = PhaseEnd ∧ a ≠ [] ∧ ∃ t, t ∈ triggers ∧ onEnd t = Some a.
Proof.
  induction triggers as [|t triggers [IHn IHa]]; simpl.
  - split; [lia|]. intros ph a Hin. by apply elem_of_nil in Hin.
  - destruct (new_RegExp (pattern t)) as [regex'|].
    + destruct (decide _).
      * change (if present (onEnd t) then [Executed PhaseEnd (default [] (onEnd t))] else [])
          with (fires PhaseEnd t).
        split.
        -- unfold fires. destruct (present _); simpl; lia.
        -- intros ph a Hin.
           assert (ph = PhaseEnd) as ->.
           { unfold fires in Hin. destruct (present _); [|by apply elem_of_nil in Hin].
             apply list_elem_of_singleton in Hin. by injection Hin. }
           apply (fires_from_configuration PhaseEnd t a) in Hin as [Ha Hfield].
           split_and!; [done..|]. exists t. split; [apply list_elem_of_here|done].
      * split; [done|]. intros ph a Hin.
        destruct (IHa ph a Hin) as (-> & Ha & t' & Ht' & Hfield).
        split_and!; [done..|]. exists t'. split; [by apply list_elem_of_further|done].
    + split; [by rewrite filter_cons_False|].
      intros ph a Hin. apply elem_of_cons in Hin as [?|Hin]; [done|].
      destruct (IHa ph a Hin) as (-> & Ha & t' & Ht' & Hfield).
      split_and!; [done..|]. exists t'. split; [by apply list_elem_of_further|done].
Qed.

(** X6: whatever the configuration, the map and the event, a handler
    executes one action at most; the action is of the event's phase (onStart
    at a start event, onEnd at an end event), it is not the empty string, and
    it is the action of a trigger of the configuration. *)
Theorem handler_executes_one_configured_action triggers ev m :
  (length (filter (fun x => is_action x = true) (handle triggers ev m).2) ≤ 1)%nat
  ∧ ∀ ph a, Executed ph a ∈ (handle triggers ev m).2 →
            ph = event_phase ev ∧ a ≠ [] ∧
            ∃ t, t ∈ triggers ∧ action_field ph t = Some a.
Proof.
  destruct ev as [e|e]; simpl.
  - unfold handleTerminalCommandStart.
    destruct (trim (commandLine_value e)) as [|c cl].
    { simpl. split; [lia|]. intros ph a Hin. by apply elem_of_nil in Hin. }
    destruct (start_loop_effects triggers (exec_id e) (c :: cl) m) as [Hn Ha].
    split; [done|]. intros ph a Hin.
    destruct (Ha ph a Hin) as (-> & ? & t & ? & ?). split_and!; [done..|]. by exists t.
  - unfold handleTerminalCommandEnd. destruct (m !! exec_id e) as [regex|].
    + simpl. destruct (end_loop_effects triggers regex) as [Hn Ha].
      split; [by rewrite filter_cons_False|].
      intros ph a Hin. apply elem_of_cons in Hin as [?|Hin]; [done|].
      destruct (Ha ph a Hin) as (-> & ? & t & ? & ?). split_and!; [done..|]. by exists t.
    + simpl. split; [lia|]. intros ph a Hin. by apply elem_of_nil in Hin.
Qed.

Lemma start_loop_records triggers id commandLine m :
  existsb (fun t => matches t commandLine) triggers = true →
  ∃ t regex, t ∈ triggers ∧ new_RegExp (pattern t) = Some regex
             ∧ RegExp_test regex commandLine = true
             ∧ (start_loop triggers id commandLine m).1 = <[id := regex]> m.
Proof.
  induction triggers as [|t triggers IH]; simpl; [done|].
  unfold matches at 1.
  destruct (new_RegExp (pattern t)) as [regex|] eqn:Hnew.
  - destruct (RegExp_test regex commandLine) eqn:Htest; simpl.
    + intros _. exists t, regex. split_and!; [apply list_elem_of_here|done..].
    + intros Hex. destruct (IH Hex) as (t' & regex' & Ht' & ? & ? & ?).
      exists t', regex'. split_and!; [by apply list_elem_of_further|done..|].
      by destruct (start_loop triggers id commandLine m).
  - simpl. intros Hex. destruct (IH Hex) as (t' & regex' & Ht' & ? & ? & ?).
    exists t', regex'. split_and!; [by apply list_elem_of_further|done..|].
    by destruct (start_loop triggers id commandLine m).
Qed.

Lemma start_loop_unmatched triggers id commandLine m :
  existsb (fun t => matches t commandLine) triggers = false →
  (start_loop triggers id commandLine m).1 = m.
Proof.
  induction triggers as [|t triggers IH]; simpl; [done|].
  unfold matches at 1.
  destruct (new_RegExp (pattern t)) as [regex|].
  - destruct (RegExp_test regex commandLine); simpl; [done|].
    intros Hex. specialize (IH Hex). by destruct (start_loop triggers id commandLine m).
  - simpl. intros Hex. specialize (IH Hex).
    by destruct (start_loop triggers id commandLine m).
Qed.

(** X7: after its start event an execution is in the map exactly when it
    was there before or the trimmed line is not empty and some trigger
    accepts it; in that second case the map holds, for this execution, an
    expression compiled from a pattern of the configuration that accepts the
    trimmed line, and is otherwise as before. *)
Theorem start_tracks_exactly_the_matched triggers e m :
  let m' := (handleTerminalCommandStart triggers e m).1 in
  (is_Some (m' !! exec_id e)
   ↔ is_Some (m !! exec_id e) ∨ matched_start triggers (DidStart e) = true)
  ∧ (matched_start triggers (DidStart e) = true →
     ∃ t regex, t ∈ triggers ∧ new_RegExp (pattern t) = Some regex
                ∧ RegExp_test regex (trim (commandLine_value e)) = true
                ∧ m' = <[exec_id e := regex]> m)
  ∧ (matched_start triggers (DidStart e) = false → m' = m).
Proof.
  intros m'. subst m'. unfold handleTerminalCommandStart, matched_start.
  destruct (trim (commandLine_value e)) as [|c cl].
  { simpl. split_and!; [split; [by left|by intros [?|?]]|done|done]. }
  destruct (existsb (fun t => matches t (c :: cl)) triggers) eqn:Hex.
  - destruct (start_loop_records triggers (exec_id e) (c :: cl) m Hex)
      as (t & regex & Ht & Hnew & Htest & Hm).
    split_and!; [|by eauto 10|done].
    rewrite Hm, lookup_insert_eq. split; [by right|by eexists].
  - rewrite (start_loop_unmatched _ _ _ _ Hex).
    split_and!; [split; [by left|by intros [?|?]]|done|done].
Qed.

Lemma end_loop_found pre t post regex :
  Forall (fun t' => prints_like regex t' = false) pre →
  prints_like regex t = true →
  end_loop (pre ++ t :: post) regex = end_errors pre ++ fires PhaseEnd t.
Proof.
  intros Hpre Ht.
  induction Hpre as [|t' pre Ht' _ IH]; [simpl|rewrite end_errors_cons; simpl].
  - unfold prints_like in Ht. destruct (new_RegExp (pattern t)); [|done].
    apply bool_decide_eq_true in Ht. by rewrite decide_True.
  - unfold prints_like in Ht'.
    destruct (new_RegExp (pattern t')) as [regex'|]; [|by rewrite IH].
    apply bool_decide_eq_false in Ht'. by rewrite decide_False.
Qed.

Lemma end_loop_not_found triggers regex :
  Forall (fun t => prints_like regex t = false) triggers →
  end_loop triggers regex = end_errors triggers.
Proof.
  induction 1 as [|t triggers Ht _ IH]; [done|]. rewrite end_errors_cons. simpl.
  unfold prints_like in Ht.
  destruct (new_RegExp (pattern t)) as [regex'|]; [|by rewrite IH].
  apply bool_decide_eq_false in Ht. by rewrite decide_False.
Qed.

(** X8: the end handler reads the configuration anew.  For an execution in
    the map, the onEnd that runs is that of the first trigger of the
    configuration given at the end event whose pattern is valid and prints
    like the recorded expression, whatever the configuration was when the
    execution started. *)
Theorem end_handler_uses_the_current_configuration pre t post e m regex :
  m !! exec_id e = Some regex →
  Forall (fun t' => prints_like regex t' = false) pre →
  prints_like regex t = true →
  handleTerminalCommandEnd (pre ++ t :: post) e m =
    (delete (exec_id e) m, Removed (exec_id e) :: end_errors pre ++ fires PhaseEnd t).
Proof.
  intros Hm Hpre Ht. unfold handleTerminalCommandEnd. rewrite Hm.
  by rewrite end_loop_found.
Qed.

(** X9: when no trigger of the configuration at the end event prints like
    the recorded expression (the trigger was removed or its pattern edited
    while the command ran), the end handler still takes the execution out of
    the map, and executes no action. *)
Theorem end_handler_cleans_up_without_trigger triggers e m regex :
  m !! exec_id e = Some regex →
  Forall (fun t => prints_like regex t = false) triggers →
  handleTerminalCommandEnd triggers e m =
    (delete (exec_id e) m, Removed (exec_id e) :: end_errors triggers)
  ∧ filter (fun x => is_action x = true) (handleTerminalCommandEnd triggers e m).2 = [].
Proof.
  intros Hm Hnone. unfold handleTerminalCommandEnd. rewrite Hm.
  rewrite end_loop_not_found by done. split; [done|]. simpl.
  rewrite filter_cons_False by done. apply end_errors_not_action.
Qed.

Lemma run_app triggers evs1 evs2 m :
  run triggers (evs1 ++ evs2) m =
    ((run triggers evs2 (run triggers evs1 m).1).1,
     (run triggers evs1 m).2 ++ (run triggers evs2 (run triggers evs1 m).1).2).
Proof.
  revert m. induction evs1 as [|ev evs1 IH]; intros m.
  - simpl. by destruct (run triggers evs2 m).
  - rewrite <- app_comm_cons, !run_cons, IH. simpl. by rewrite app_assoc.
Qed.

Lemma run_stays_absent triggers evs m id :
  Forall (fun ev => is_start_of id ev = false) evs →
  m !! id = None →
  (run triggers evs m).1 !! id = None.
Proof.
  intros Hevs. revert m. induction Hevs as [|ev evs Hev _ IH]; intros m Hm; [done|].
  rewrite run_cons. simpl. apply IH.
  destruct ev as [e|e].
  - simpl in Hev. apply bool_decide_eq_false in Hev.
    by rewrite (handle_lookup_ne triggers (DidStart e)).
  - simpl. unfold handleTerminalCommandEnd.
    destruct (m !! exec_id e) eqn:Hme; [|done]. simpl.
    destruct (decide (exec_id e = id)) as [->|Hne]; [by rewrite lookup_delete_eq|].
    by rewrite lookup_delete_ne.
Qed.

(** X10: an execution whose end event has come, and that has not started
    again since, is not in the map, whatever happened before and whichever
    other events came after: ended executions do not pile up. *)
Theorem ended_execution_is_forgotten triggers evs1 e evs2 m :
  Forall (fun ev => is_start_of (exec_id e) ev = false) evs2 →
  (run triggers (evs1 ++ DidEnd e :: evs2) m).1 !! exec_id e = None.
Proof.
  intros Hevs2. rewrite run_app. cbn [fst]. rewrite run_cons. cbn [fst].
  apply run_stays_absent; [done|].
  simpl. unfold handleTerminalCommandEnd.
  destruct ((run triggers evs1 m).1 !! exec_id e) eqn:Hm; simpl;
    [apply lookup_delete_eq|done].
Qed.

(** A handler looks at the map at the event's execution only, and changes
    it there only. *)
Lemma handle_local triggers ev m :
  ∃ change : option (option RegExp),
    (handle triggers ev m).1 =
      match change with
      | None => m
      | Some (Some regex) => <[event_id ev := regex]> m
      | Some None => delete (event_id ev) m
      end
    ∧ ∀ m2, m2 !! event_id ev = m !! event_id ev →
            (handle triggers ev m2).2 = (handle triggers ev m).2
            ∧ (handle triggers ev m2).1 =
                match change with
                | None => m2
                | Some (Some regex) => <[event_id ev := regex]> m2
                | Some None => delete (event_id ev) m2
                end.
Proof.
  destruct ev as [e|e]; simpl.
  - unfold handleTerminalCommandStart.
    destruct (trim (commandLine_value e)) as [|c cl]; [by exists None|].
    generalize (c :: cl). intros commandLine.
    induction triggers as [|t triggers (change & Hm & Hother)]; simpl; [by exists None|].
    destruct (new_RegExp (pattern t)) as [regex|].
    + destruct (RegExp_test regex commandLine); [by exists (Some (Some regex))|].
      exists change. split.
      * by destruct (start_loop triggers (exec_id e) commandLine m).
      * intros m2 Hm2. destruct (Hother m2 Hm2) as [Heff Hmap].
        destruct (start_loop triggers (exec_id e) commandLine m),
                 (start_loop triggers (exec_id e) commandLine m2).
        simpl in *. by subst.
    + exists change. split.
      * by destruct (start_loop triggers (exec_id e) commandLine m).
      * intros m2 Hm2. destruct (Hother m2 Hm2) as [Heff Hmap].
        destruct (start_loop triggers (exec_id e) commandLine m),
                 (start_loop triggers (exec_id e) commandLine m2).
        simpl in *. by subst.
  - unfold handleTerminalCommandEnd.
    destruct (m !! exec_id e) as [regex|] eqn:Hm.
    + exists (Some None). split; [done|]. intros m2 ->. done.
    + exists None. split; [done|]. intros m2 ->. done.
Qed.

(** X11: events of two different executions can come in either order: the
    map afterwards is the same, and each event has the same effects as in
    the other order. *)
Theorem events_of_different_executions_commute triggers ev1 ev2 m :
  event_id ev1 ≠ event_id ev2 →
  let first1 := handle triggers ev1 m in
  let then2 := handle triggers ev2 first1.1 in
  let first2 := handle triggers ev2 m in
  let then1 := handle triggers ev1 first2.1 in
  then2.1 = then1.1 ∧ first1.2 = then1.2 ∧ then2.2 = first2.2.
Proof.
  intros Hne first1 then2 first2 then1. subst first1 then2 first2 then1.
  destruct (handle_local triggers ev1 m) as (change1 & Hm1 & Hother1).
  destruct (handle_local triggers ev2 m) as (change2 & Hm2 & Hother2).
  destruct (Hother1 (handle triggers ev2 m).1) as [Heff1 Hmap1].
  { by apply handle_lookup_ne. }
  destruct (Hother2 (handle triggers ev1 m).1) as [Heff2 Hmap2].
  { by apply handle_lookup_ne. }
  split_and!; [|done|done].
  rewrite Hmap1, Hmap2, Hm1, Hm2.
  destruct change1 as [[regex1|]|], change2 as [[regex2|]|]; try done.
  - by apply insert_insert_ne.
  - by rewrite delete_insert_ne.
  - by rewrite delete_insert_ne.
  - apply delete_delete.
Qed.

End HandlersMore.

(** ** More on the Shell Integration warning *)

(** X12: when an activation finds the flag unset and at least one
    terminal, the flag is recorded whatever the user answers, and over that
    activation and all the later ones the warning is shown once if none of
    those terminals had shell integration, and never if one had. *)
Theorem warning_once_when_terminals_are_open a later shown :
  terminals a ≠ [] →
  activations (a :: later) (false, shown) =
    (true, if existsb shellIntegration (terminals a) then shown else S shown).
Proof.
  intros Hne. unfold activations. cbn [foldl].
  assert (checkShellIntegration a (false, shown) =
          (true, if existsb shellIntegration (terminals a) then shown else S shown))
    as ->.
  { unfold checkShellIntegration.
    destruct (terminals a) as [|terminal rest] eqn:Hterminals; [done|].
    rewrite bool_decide_eq_false_2 by done. rewrite andb_false_r.
    destruct (existsb shellIntegration (terminal :: rest)); simpl; [done|].
    by destruct (choice a). }
  apply activations_recorded.
Qed.

Lemma warn_opened_terminals (l : list (Terminal * selection)) flag shown :
  foldl (fun st' '(terminal, answer) =>
           if negb (shellIntegration terminal)
           then showShellIntegrationWarning answer st' else st')
        (flag, shown) l
  = (flag || existsb declined l,
     (shown + length (filter (fun x => warned x = true) l))%nat).
Proof.
  revert flag shown. induction l as [|[terminal answer] l IH]; intros flag shown.
  - simpl. by rewrite orb_false_r, Nat.add_0_r.
  - cbn [foldl]. unfold declined at 1, warned at 1. cbn [existsb fst snd].
    destruct (shellIntegration terminal) eqn:Hint; cbn [negb andb].
    + rewrite IH. rewrite filter_cons_False; [done|].
      unfold warned. simpl. by rewrite Hint.
    + unfold showShellIntegrationWarning. rewrite IH.
      rewrite filter_cons_True by (unfold warned; simpl; by rewrite Hint).
      simpl. f_equal; [|lia].
      destruct answer, flag; simpl; try done; by rewrite ?orb_true_r.
Qed.

(** X13: an activation that finds the flag unset and no terminal shows one
    warning for each terminal opened afterwards without shell integration,
    and records the flag only if one of those warnings was answered "Don't
    Show Again": a warning that is dismissed comes back at the next
    activation. *)
Theorem activation_without_terminals a shown :
  terminals a = [] →
  checkShellIntegration a (false, shown) =
    (existsb declined (opened a),
     (shown + length (filter (fun x => warned x = true) (opened a)))%nat).
Proof.
  intros Hnone. unfold checkShellIntegration. rewrite Hnone. simpl.
  by rewrite warn_opened_terminals.
Qed.

(** C10: the warning is not kept to one showing.  Activations that find
    the flag unset and no terminal, and whose warnings are never answered
    "Don't Show Again", leave the flag unset and show a warning for every
    terminal opened without shell integration, at each activation anew. *)
Theorem warning_returns_until_declined l shown :
  Forall (fun a => terminals a = [] ∧ existsb declined (opened a) = false) l →
  activations l (false, shown) =
    (false,
     (shown + sum_list ((fun a => length (filter (fun x => warned x = true) (opened a)))
                          <$> l))%nat).
Proof.
  intros Hl. revert shown. induction Hl as [|a l [Hnone Hdismissed] _ IH]; intros shown.
  - simpl. by rewrite Nat.add_0_r.
  - unfold activations in *. cbn [foldl].
    assert (checkShellIntegration a (false, shown) =
            (false, (shown + length (filter (fun x => warned x = true) (opened a)))%nat))
      as ->.
    { unfold checkShellIntegration. rewrite Hnone. simpl.
      by rewrite warn_opened_terminals, Hdismissed. }
    rewrite IH, fmap_cons. simpl. f_equal. lia.
Qed.

(** ** The status bar item *)

Lemma notification_keeps_timer message duration now s :
  timer_kept s → timer_kept (showTemporaryNotification message duration now s).
Proof.
  unfold timer_kept, showTemporaryNotification. intros Hs. simpl.
  split; [done|].
  destruct (statusBarTimeout s) as [handle|].
  - destruct Hs as [_ [due Htimers]]. simpl. rewrite Htimers, delete_singleton_eq.
    eexists. apply insert_empty.
  - destruct Hs as [_ ->]. eexists. apply insert_empty.
Qed.

Lemma fire_due_keeps_timer now s : timer_kept s → timer_kept (fire_due now s).
Proof.
  unfold timer_kept, fire_due. intros Hs.
  destruct (decide _) as [Hdue|Hdue]; [done|]. simpl.
  split; [done|].
  destruct (statusBarTimeout s) as [handle|].
  - destruct Hs as [_ [due Htimers]]. rewrite Htimers in *.
    rewrite map_filter_singleton in Hdue |- *. simpl in *.
    destruct (decide (due ≤ now)%nat); [|done].
    by rewrite decide_False by lia.
  - destruct Hs as [_ Htimers]. rewrite Htimers. apply map_filter_empty.
Qed.

Lemma ui_run_keeps_timer evs s : timer_kept s → timer_kept (ui_run evs s).
Proof.
  revert s. induction evs as [|ev evs IH]; intros s Hs; [done|].
  apply IH. destruct ev; [by apply notification_keeps_timer|by apply fire_due_keeps_timer].
Qed.

(** X14: after any sequence of notifications and timer firings since the
    item was created, the item is shown exactly when a timeout is pending,
    and then there is one, the one whose handle the module keeps: an item
    that is shown will be hidden, and no stale timeout is left to hide a
    later message. *)
Theorem shown_item_has_its_timer evs :
  let s := ui_run evs created in
  (size (timers s) ≤ 1)%nat
  ∧ (statusBarItem_visible s = true ↔ timers s ≠ ∅)
  ∧ (∀ handle, is_Some (timers s !! handle) → statusBarTimeout s = Some handle).
Proof.
  intros s. assert (timer_kept s) as Hs.
  { apply ui_run_keeps_timer. by split. }
  unfold timer_kept in Hs.
  destruct (statusBarTimeout s) as [handle|].
  - destruct Hs as [Hvisible [due Htimers]]. rewrite Htimers, Hvisible.
    split_and!.
    + by rewrite map_size_singleton.
    + split; [|done]. intros _. apply insert_non_empty.
    + intros handle' [due' Hlookup].
      apply lookup_singleton_Some in Hlookup as [-> _]. done.
  - destruct Hs as [Hvisible Htimers]. rewrite Htimers, Hvisible.
    split_and!.
    + rewrite map_size_empty. lia.
    + split; [done|]. by intros Hne.
    + intros handle' [due' Hlookup]. by rewrite lookup_empty in Hlookup.
Qed.




(** X16: after [deactivate], whatever the history of the item and of the
    map: no timeout is pending, so that nothing will run on the disposed
    item, and the map is empty, so that the end event of an execution that
    started before does nothing. *)
Theorem deactivate_leaves_nothing_behind `{RegExpEngine} evs
    (m : gmap positive RegExp) triggers e now :
  let after := deactivate (ui_run evs created) m in
  statusBarItem_disposed after.1 = true
  ∧ timers after.1 = ∅
  ∧ fire_due now after.1 = after.1
  ∧ after.2 = ∅
  ∧ handleTerminalCommandEnd triggers e after.2 = (after.2, []).
Proof.
  intros after.
  assert (timer_kept (ui_run evs created)) as Hkept.
  { apply ui_run_keeps_timer. by split. }
  assert (timers after.1 = ∅) as Htimers.
  { subst after. unfold deactivate, timer_kept in *. simpl.
    destruct (statusBarTimeout (ui_run evs created)) as [handle|]; simpl.
    - destruct Hkept as [_ [due ->]]. apply delete_singleton_eq.
    - by destruct Hkept as [_ ->]. }
  split_and!; [done|done| |done|done].
  unfold fire_due. rewrite Htimers, map_filter_empty. by rewrite decide_True.
Qed.

(** ** The definitions at work *)

Lemma literal_faithful : @toString_faithful literal_engine.
Proof.
  intros [source1] [source2] Hsame s. simpl in *.
  unfold literal_toString in Hsame. simpl in Hsame.
  injection Hsame as Hsame. apply app_inv_tail in Hsame. by subst.
Qed.

Module Checks.
Import Samples.

Example trim_build : trim (lit "  make all ") = lit "make all".
Proof. reflexivity. Qed.

Example trim_line_separator : trim [8232; 120; 160] = [120].
Proof. reflexivity. Qed.

Example split_keeps_empty_parts : split colon (lit "a::b:") = [lit "a"; []; lit "b"; []].
Proof. reflexivity. Qed.

Example readme_action :
  @executeAction host (lit "ext:llvm-vs-code-extensions.vscode-clangd:client.stop")
  = ([@Activate host (lit "llvm-vs-code-extensions.vscode-clangd", Some clangd_api);
      @CallMethod host (JFunction (lit "stop"))
        (JObject [ (lit "stop", JFunction (lit "stop"));
                   (lit "start", JFunction (lit "start"));
                   (lit "name", JString (lit "clangd")) ])], None).
Proof. reflexivity. Qed.

Example exports_nothing :
  @executeAction host (lit "ext:pub.silent:stop")
  = ([@Activate host (lit "pub.silent", Some JUndefined)],
     Some (CannotReadProperty (lit "stop"))).
Proof. reflexivity. Qed.

Example not_a_function :
  @executeAction host (lit "ext:llvm-vs-code-extensions.vscode-clangd:client.name")
  = ([@Activate host (lit "llvm-vs-code-extensions.vscode-clangd", Some clangd_api)],
     Some (NotAFunction (lit "client.name"))).
Proof. reflexivity. Qed.

Example path_not_found :
  @executeAction host (lit "ext:llvm-vs-code-extensions.vscode-clangd:server.stop")
  = ([@Activate host (lit "llvm-vs-code-extensions.vscode-clangd", Some clangd_api)],
     Some (ApiPathNotFound (lit "server.stop") (lit "server"))).
Proof. reflexivity. Qed.

(** A warning shown through the terminal listener and dismissed leaves the
    flag unset, and the next activation warns again. *)
Example dismissed_warning_returns :
  let a := {| terminals := []; choice := Dismissed;
              opened := [({| shellIntegration := false |}, Dismissed)] |} in
  activations [a; a] (false, 0%nat) = (false, 2%nat).
Proof. reflexivity. Qed.

(** C2, as stated, fails: [make all] is accepted by both triggers of
    [overlapping], yet the second one's onStart and onEnd are not executed;
    the blank line is accepted by the empty pattern, yet nothing is
    executed for it; and the onEnd of a trigger that matched is not executed
    when the trigger is no longer in the configuration at the end event. *)
Lemma every_match_fires_counterexample :
  let second := trigger "make all" "second.start" "second.end" in
  let e := execution 1 "make all" in
  let started := @handleTerminalCommandStart literal_engine overlapping e ∅ in
  let ended := @handleTerminalCommandEnd literal_engine overlapping e started.1 in
  (second ∈ overlapping
   ∧ @matches literal_engine second (trim (commandLine_value e)) = true
   ∧ started.2 = [Tested (lit "make") (lit "make all"); Recorded 1;
                  Executed PhaseStart (lit "first.start")]
   ∧ ¬ (Executed PhaseStart (lit "second.start") ∈ started.2)
   ∧ ended.2 = [Removed 1; Executed PhaseEnd (lit "first.end")]
   ∧ ¬ (Executed PhaseEnd (lit "second.end") ∈ ended.2))
  ∧ (@matches literal_engine (trigger "" "any.start" "any.end")
       (trim (commandLine_value (execution 2 "   "))) = true
     ∧ (@handleTerminalCommandStart literal_engine accepts_all (execution 2 "   ") ∅)
       = (∅, []))
  ∧ (@matches literal_engine build (trim (commandLine_value e)) = true
     ∧ (@handleTerminalCommandEnd literal_engine emptied e
          (@handleTerminalCommandStart literal_engine [build] e ∅).1).2 = [Removed 1]).
Proof.
  cbv zeta. split_and!; try reflexivity.
  - apply list_elem_of_further, list_elem_of_here.
  - vm_compute. intros Hin. repeat (apply elem_of_cons in Hin as [Hin|Hin]; [done|]).
    by apply elem_of_nil in Hin.
  - vm_compute. intros Hin. repeat (apply elem_of_cons in Hin as [Hin|Hin]; [done|]).
    by apply elem_of_nil in Hin.
Qed.

(** C1, as stated, fails: the command starts under [at_start], where it
    matches the trigger whose onEnd is [a.end]; when it ends the
    configuration is [at_end], which still holds that trigger, after another
    one with the same pattern.  The end handler executes the onEnd of that
    other trigger, [b.end], and not [a.end]. *)
Lemma same_trigger_counterexample :
  let matched := trigger "make" "a.start" "a.end" in
  let e := execution 1 "make all" in
  let started := @handleTerminalCommandStart literal_engine at_start e ∅ in
  let ended := @handleTerminalCommandEnd literal_engine at_end e started.1 in
  started.2 = [Tested (lit "make") (lit "make all"); Recorded 1;
               Executed PhaseStart (lit "a.start")]
  ∧ matched ∈ at_start
  ∧ matched ∈ at_end
  ∧ ended.2 = [Removed 1; Executed PhaseEnd (lit "b.end")]
  ∧ ¬ (Executed PhaseEnd (lit "a.end") ∈ ended.2).
Proof.
  cbv zeta. split_and!; try reflexivity.
  - apply list_elem_of_here.
  - apply list_elem_of_further, list_elem_of_here.
  - vm_compute. intros Hin. repeat (apply elem_of_cons in Hin as [Hin|Hin]; [done|]).
    by apply elem_of_nil in Hin.
Qed.

(** C4, as stated, fails: the extension [pub.broken] is installed and the
    action has two parts, but its activation fails; the promise is
    rejected, nothing is invoked, and none of the four listed causes
    holds.  So it is where a segment resolves to [false], which is not
    nothing, and the path ends on a function. *)
Lemma listed_causes_counterexample :
  (@executeAction host (lit "ext:pub.broken:client.stop")
     = ([@Activate host (lit "pub.broken", None)], Some (ActivationFailed (lit "pub.broken")))
   ∧ @rejects_without_invoking host (lit "ext:pub.broken:client.stop") = true
   ∧ @listed_causes host (lit "ext:pub.broken:client.stop") = false)
  ∧ (@executeAction host (lit "ext:pub.flags:enabled.toString")
       = ([@Activate host (lit "pub.flags", Some (JObject [(lit "enabled", JBoolean false)]))],
          Some (ApiPathNotFound (lit "enabled.toString") (lit "enabled")))
     ∧ @rejects_without_invoking host (lit "ext:pub.flags:enabled.toString") = true
     ∧ @listed_causes host (lit "ext:pub.flags:enabled.toString") = false).
Proof. split_and!; reflexivity. Qed.

(** The theorems at concrete inputs. *)

Lemma blank_command_witness :
  (@handleTerminalCommandStart literal_engine accepts_all (execution 2 "   ") ∅) = (∅, []).
Proof. apply (@blank_command_is_ignored literal_engine). repeat constructor. Defined.


Lemma invalid_pattern_witness :
  (@handleTerminalCommandStart literal_engine with_invalid (execution 1 "make all") ∅).2
  = [InvalidPattern (lit "("); Tested (lit "make") (lit "make all"); Recorded 1;
     Executed PhaseStart (lit "build.start")].
Proof.
  refine (f_equal snd (proj2 (proj2 (@invalid_pattern_is_skipped literal_engine []
    (trigger "(" "never.start" "never.end") [trigger "make" "build.start" "build.end"]
    (execution 1 "make all") ∅ _)) _ _)).
  - reflexivity.
  - discriminate.
  - constructor.
Defined.

Lemma end_fires_witness :
  (@handleTerminalCommandEnd literal_engine (before_match ++ build :: after_match)
     (execution 1 "make all")
     (@run literal_engine (before_match ++ build :: after_match) other_events
        (@handleTerminalCommandStart literal_engine (before_match ++ build :: after_match)
           (execution 1 " make all ") ∅).1).1).2
  = [Removed 1; Executed PhaseEnd (lit "first.end")].
Proof.
  refine (f_equal snd (proj1 (@end_fires_the_trigger_that_started literal_engine
    before_match build after_match (execution 1 " make all ") (execution 1 "make all") ∅
    (lit "make all") {| literal_source := lit "make" |} other_events
    literal_faithful _ _ _ _ _ _ _))).
  - reflexivity.
  - discriminate.
  - repeat constructor.
  - reflexivity.
  - reflexivity.
  - repeat constructor; discriminate.
  - reflexivity.
Defined.

Lemma first_match_fires_witness :
  Executed PhaseStart (lit "first.start") ∈
    (@handleTerminalCommandStart literal_engine (before_match ++ build :: after_match)
       (execution 1 " make all ") ∅).2.
Proof.
  refine (proj1 (proj1 (@first_match_fires_start_and_end literal_engine
    before_match build after_match (execution 1 " make all ") (execution 1 "make all") ∅
    (lit "make all") {| literal_source := lit "make" |} other_events
    literal_faithful _ _ _ _ _ _) _) (lit "first.start") _ _).
  - reflexivity.
  - repeat constructor.
  - reflexivity.
  - reflexivity.
  - repeat constructor; discriminate.
  - reflexivity.
  - discriminate.
  - reflexivity.
  - discriminate.
Defined.

Lemma unmatched_command_witness :
  (@handleTerminalCommandStart literal_engine overlapping (execution 3 "ls") ∅).1 = ∅.
Proof.
  refine (proj1 (@unmatched_command_changes_nothing literal_engine overlapping
    (execution 3 "ls") ∅ _ _)).
  - repeat constructor.
  - reflexivity.
Defined.

Lemma end_once_witness :
  (length (end_actions 1
     (@run literal_engine overlapping
        [DidStart (execution 1 "make"); DidEnd (execution 1 "make");
         DidEnd (execution 1 "make")] ∅).2) ≤ 1)%nat.
Proof.
  exact (proj2 (proj2 (@active_executions_are_matched_and_end_once literal_engine
    overlapping [DidStart (execution 1 "make"); DidEnd (execution 1 "make");
                 DidEnd (execution 1 "make")] (execution 1 "make")))).
Defined.


Lemma rejects_exactly_when_witness :
  @rejects_without_invoking host (lit "ext:pub.broken:client.stop")
  = @rejection_causes host (lit "ext:pub.broken:client.stop").
Proof. apply (@ext_action_rejects_exactly_when host). reflexivity. Defined.

Lemma warning_not_shown_again_witness :
  let first := {| terminals := [ {| shellIntegration := false |} ]; choice := Dismissed;
                  opened := [] |} in
  let listener := {| terminals := []; choice := Dismissed;
                     opened := [({| shellIntegration := false |}, Dismissed)] |} in
  activations [first; listener] (checkShellIntegration first (false, 0%nat))
  = checkShellIntegration first (false, 0%nat).
Proof. cbv zeta. apply warning_is_not_shown_again. reflexivity. Defined.

Lemma warning_returns_witness :
  activations [dismissing; dismissing] (false, 0%nat) = (false, 2%nat).
Proof.
  refine (warning_returns_until_declined [dismissing; dismissing] 0%nat _).
  repeat constructor.
Defined.

End Checks.

Module MoreChecks.
Import Samples.

Lemma parts_round_trip_witness :
  lit "ext:pub.colon:ns:client.stop"
  = lit "ext:" ++ lit "pub.colon" ++ colon :: lit "ns:client.stop".
Proof.
  refine (proj1 (ext_action_parts_round_trip (lit "ext:pub.colon:ns:client.stop") _ _)).
  - reflexivity.
  - vm_compute. lia.
Defined.

Lemma first_falsy_witness :
  @executeAction host
    (lit "ext:llvm-vs-code-extensions.vscode-clangd:client.name.size.get")
  = ([@Activate host (lit "llvm-vs-code-extensions.vscode-clangd", Some clangd_api)],
     Some (ApiPathNotFound (lit "client.name.size.get") (lit "client.name.size"))).
Proof.
  refine (@api_path_not_found_names_first_falsy host
    (lit "ext:llvm-vs-code-extensions.vscode-clangd:client.name.size.get")
    (lit "llvm-vs-code-extensions.vscode-clangd", Some clangd_api) clangd_api
    2%nat JUndefined _ _ _ _ _ _ _).
  - reflexivity.
  - vm_compute. lia.
  - reflexivity.
  - reflexivity.
  - reflexivity.
  - reflexivity.
  - repeat constructor.
Defined.

Lemma white_space_witness :
  @handleTerminalCommandStart literal_engine overlapping (execution 1 "  make all  ") ∅
  = @handleTerminalCommandStart literal_engine overlapping (execution 1 "make all") ∅.
Proof.
  refine (@surrounding_white_space_is_ignored literal_engine overlapping
    (execution 1 "make all") (execution 1 "  make all  ") ∅ (lit "  ") (lit "  ") _ _ _ _).
  - repeat constructor.
  - repeat constructor.
  - reflexivity.
  - reflexivity.
Defined.

Lemma current_configuration_witness :
  (@handleTerminalCommandEnd literal_engine edited (execution 1 "make all")
     (@handleTerminalCommandStart literal_engine overlapping (execution 1 "make all") ∅).1).2
  = [Removed 1; Executed PhaseEnd (lit "edited.end")].
Proof.
  refine (f_equal snd (@end_handler_uses_the_current_configuration literal_engine
    [trigger "test" "test.start" "test.end"] (trigger "make" "first.start" "edited.end") []
    (execution 1 "make all")
    (@handleTerminalCommandStart literal_engine overlapping (execution 1 "make all") ∅).1
    {| literal_source := lit "make" |} _ _ _)).
  - reflexivity.
  - repeat constructor.
  - reflexivity.
Defined.

Lemma cleans_up_witness :
  (@handleTerminalCommandEnd literal_engine emptied (execution 1 "make all")
     (@handleTerminalCommandStart literal_engine overlapping (execution 1 "make all") ∅).1).2
  = [Removed 1].
Proof.
  refine (f_equal snd (proj1 (@end_handler_cleans_up_without_trigger literal_engine
    emptied (execution 1 "make all")
    (@handleTerminalCommandStart literal_engine overlapping (execution 1 "make all") ∅).1
    {| literal_source := lit "make" |} _ _))).
  - reflexivity.
  - repeat constructor.
Defined.

Lemma forgotten_witness :
  (@run literal_engine overlapping
     ([DidStart (execution 1 "make")] ++ DidEnd (execution 1 "make") :: other_events) ∅).1
    !! 1%positive = None.
Proof.
  refine (@ended_execution_is_forgotten literal_engine overlapping
    [DidStart (execution 1 "make")] (execution 1 "make") other_events ∅ _).
  repeat constructor.
Defined.

Lemma commute_witness :
  let m := (@handleTerminalCommandStart literal_engine before_match (execution 2 "test") ∅).1 in
  let ev1 := DidStart (execution 1 "make") in
  let ev2 := DidEnd (execution 2 "test") in
  (@handle literal_engine overlapping ev2 (@handle literal_engine overlapping ev1 m).1).1
  = (@handle literal_engine overlapping ev1 (@handle literal_engine overlapping ev2 m).1).1.
Proof.
  cbv zeta.
  refine (proj1 (@events_of_different_executions_commute literal_engine overlapping
    (DidStart (execution 1 "make")) (DidEnd (execution 2 "test")) _ _)).
  discriminate.
Defined.

Lemma warning_once_witness :
  activations (bare_terminal :: [no_terminal; bare_terminal]) (false, 0%nat) = (true, 1%nat).
Proof.
  refine (warning_once_when_terminals_are_open bare_terminal [no_terminal; bare_terminal]
    0%nat _).
  discriminate.
Defined.

Lemma without_terminals_witness :
  checkShellIntegration no_terminal (false, 0%nat) = (false, 2%nat).
Proof.
  refine (activation_without_terminals no_terminal 0%nat _).
  reflexivity.
Defined.


End MoreChecks.
